(** * fix-dark-mode-contrast.py: a verified model

    The script [apps/frontend/scripts/fix-dark-mode-contrast.py] walks
    [apps/frontend/src], and for every path matching [*.tsx] reads the file
    as UTF-8 text, applies

      re.sub(r'dark:text-gray-700\b', 'dark:text-gray-300', content)

    and writes the result back in place.

    The development has three layers:
    - [Text]: Python strings as lists of code points, the fragment of the
      [re] module the script uses (literals and the [\b] assertion) and
      [re.sub]/[re.subn];
    - [FS]: a directory tree with per-file permissions, [open] in text
      mode with universal newlines, and [Path.rglob];
    - [Script]: [fix_dark_mode_contrast] and [main] in a state-and-exception
      monad over the file system, the I/O trace and standard output, on a
      device that may fail on a write, and on one that takes every write. *)

From Stdlib Require Import List Bool Arith Lia NArith String Ascii.
From Stdlib Require Import Numbers.DecimalString.
Import ListNotations.

Set Implicit Arguments.

(* ================================================================== *)
(** * Text: code points, word characters, the regex fragment *)
(* ================================================================== *)

Module Text.

(** A Python [str] is a sequence of Unicode code points. *)
Definition char := N.
Definition str := list char.

(** Code points of an ASCII literal, as written in the script. *)
Definition lit (s : string) : str :=
  map N_of_ascii (list_ascii_of_string s).

Definition ascii_isalnum (c : char) : bool :=
  ((48 <=? c) && (c <=? 57) || (65 <=? c) && (c <=? 90)
   || (97 <=? c) && (c <=? 122))%N.

Definition underscore : char := 95%N.

Section Regex.

(** [Py_UNICODE_ISALNUM] outside ASCII: the Unicode database is not part
    of the script, so every result below holds for any such table. *)
Variable uni_isalnum : char -> bool.

Definition py_unicode_isalnum (c : char) : bool :=
  if (c <? 128)%N then ascii_isalnum c else uni_isalnum c.

(** [\w] for [str] patterns: alphanumeric or underscore. *)
Definition is_word (c : char) : bool :=
  py_unicode_isalnum c || (c =? underscore)%N.

(** The character on one side of a position; no character there counts
    as a non-word character. *)
Definition word_opt (o : option char) : bool :=
  match o with Some c => is_word c | None => false end.

(** [\b]: exactly one of the two neighbours is a word character. *)
Definition at_boundary (prev : option char) (s : str) : bool :=
  xorb (word_opt prev) (word_opt (hd_error s)).

(** The pattern syntax the script needs. *)
Inductive atom : Type :=
| Lit (c : char)
| WordB.

(** Anchored match of [p] against [s], [prev] being the character just
    before [s]; returns the number of characters consumed. *)
Fixpoint match_here (p : list atom) (prev : option char) (s : str)
  : option nat :=
  match p with
  | [] => Some 0
  | Lit a :: p' =>
      match s with
      | c :: s' =>
          if (a =? c)%N then option_map S (match_here p' (Some c) s')
          else None
      | [] => None
      end
  | WordB :: p' =>
      if at_boundary prev s then match_here p' prev s else None
  end.

(** [re.subn]: scan left to right, replacing every non-overlapping
    match.  [skip] counts the characters of the current match that are
    still to be passed over.  An empty match is replaced in front of the
    character it precedes (and at the end of the text). *)
Fixpoint subn_scan (p : list atom) (repl : str) (skip : nat)
         (prev : option char) (s : str) : str * nat :=
  match s with
  | [] =>
      match skip, match_here p prev [] with
      | 0, Some _ => (repl, 1)
      | _, _ => ([], 0)
      end
  | c :: s' =>
      match skip with
      | S k => subn_scan p repl k (Some c) s'
      | 0 =>
          match match_here p prev s with
          | Some (S n) =>
              let (o, k) := subn_scan p repl n (Some c) s' in
              (repl ++ o, S k)
          | Some 0 =>
              let (o, k) := subn_scan p repl 0 (Some c) s' in
              (repl ++ c :: o, S k)
          | None =>
              let (o, k) := subn_scan p repl 0 (Some c) s' in
              (c :: o, k)
          end
      end
  end.

Definition re_subn (p : list atom) (repl s : str) : str * nat :=
  subn_scan p repl 0 None s.

(** [re.sub] is [re.subn] without the count. *)
Definition re_sub (p : list atom) (repl s : str) : str :=
  fst (re_subn p repl s).

(** ** The script's pattern and replacement *)

Definition token : str := Eval cbv in lit "dark:text-gray-700".
Definition replacement : str := Eval cbv in lit "dark:text-gray-300".

(** [r'dark:text-gray-700\b'] *)
Definition pattern : list atom := map Lit token ++ [WordB].

(** The substitution of line 18, and the number of replacements it
    performs. *)
Definition rewrite_text (content : str) : str :=
  re_sub pattern replacement content.

Definition rewrite_count (content : str) : nat :=
  snd (re_subn pattern replacement content).

(** ** Occurrences, stated on the text alone

    [exact_here s]: the token stands at the head of [s] and is not followed
    by a word character.  These are the occurrences the comment on line 17
    asks for ("avoid matching dark:text-gray-7000 etc."). *)

Fixpoint starts_with (t s : str) : bool :=
  match t, s with
  | [], _ => true
  | a :: t', c :: s' => (a =? c)%N && starts_with t' s'
  | _ :: _, [] => false
  end.

Definition exact_here (s : str) : bool :=
  starts_with token s
  && negb (word_opt (hd_error (skipn (List.length token) s))).


End Regex.

(** The character before the position reached after matching the
    literals [t]. *)
Fixpoint last_seen (t : str) (prev : option char) : option char :=
  match t with
  | [] => prev
  | a :: t' => last_seen t' (Some a)
  end.

(** The only change a replacement makes to a character: the [7] of the
    token becomes the [3] of the replacement. *)
Definition same_or_fixed (a b : char) : Prop :=
  a = b \/ (a = 55%N /\ b = 51%N).


(** The characters a utility-class token such as [dark:text-gray-700] is
    made of: word characters and the separators [:] and [-] the token
    itself contains. *)
Definition is_token_char (uni_isalnum : char -> bool) (c : char) : bool :=
  is_word uni_isalnum c || (c =? 58)%N || (c =? 45)%N.

Definition CR : char := 13%N.
Definition LF : char := 10%N.

End Text.

(* ================================================================== *)
(** * FS: directory tree, text-mode I/O, rglob *)
(* ================================================================== *)

Module FS.
Import Text.

Definition name := string.

(** A path is the list of its components, relative to the directory the
    script is started in. *)
Definition path := list name.

(** A regular file: its bytes, read as UTF-8 (the script gives the
    encoding explicitly; the codec is a bijection between valid UTF-8 and
    code point sequences, so the file is kept as the code points its bytes
    encode), and whether this process may open it for reading and for
    writing.  Files whose bytes are not valid UTF-8 (on which [read]
    raises [UnicodeDecodeError], not an [OSError]) are outside the
    model. *)
Record file : Type := mkFile {
  f_data : str;
  f_readable : bool;
  f_writable : bool
}.

#[warnings="-register-all"]
Inductive node : Type :=
| File (f : file)
| Dir (entries : list (name * node)).

Inductive errno : Type :=
| ENOENT | ENOTDIR | EISDIR | EACCES | ENOSPC | EFBIG.

Fixpoint find_entry (n : name) (es : list (name * node)) : option node :=
  match es with
  | [] => None
  | (m, c) :: es' => if String.eqb n m then Some c else find_entry n es'
  end.

Fixpoint update_entry (n : name) (g : node -> node)
         (es : list (name * node)) : list (name * node) :=
  match es with
  | [] => []
  | (m, c) :: es' =>
      if String.eqb n m then (m, g c) :: es'
      else (m, c) :: update_entry n g es'
  end.

(** Path resolution from the tree [t]. *)
Fixpoint resolve (p : path) (t : node) : errno + node :=
  match p with
  | [] => inr t
  | n :: p' =>
      match t with
      | File _ => inl ENOTDIR
      | Dir es =>
          match find_entry n es with
          | Some c => resolve p' c
          | None => inl ENOENT
          end
      end
  end.

(** Apply [g] to the node at [p]; a path that does not resolve changes
    nothing. *)
Fixpoint update (p : path) (g : node -> node) (t : node) : node :=
  match p with
  | [] => g t
  | n :: p' =>
      match t with
      | File _ => t
      | Dir es => Dir (update_entry n (update p' g) es)
      end
  end.

Definition set_data (d : str) (t : node) : node :=
  match t with
  | File f => File (mkFile d (f_readable f) (f_writable f))
  | Dir _ => t
  end.

(** Add a new entry [n] to the directory at [p]. *)
Definition add_entry (n : name) (c : node) (t : node) : node :=
  match t with
  | File _ => t
  | Dir es => Dir (es ++ [(n, c)])
  end.

(** Text mode, [newline=None], reading: [\r\n] and a lone [\r] both
    become [\n]. *)
Fixpoint universal_newlines (s : str) : str :=
  match s with
  | [] => []
  | c :: s' =>
      if (c =? CR)%N then
        LF :: match s' with
              | d :: s'' =>
                  if (d =? LF)%N then universal_newlines s''
                  else universal_newlines s'
              | [] => []
              end
      else c :: universal_newlines s'
  end.

(** [os.linesep] of the platform the script's shebang line targets. *)
Definition os_linesep : str := [LF].

(** Text mode, [newline=None], writing: every [\n] becomes [os.linesep]. *)
Definition translate_newlines (s : str) : str :=
  flat_map (fun c => if (c =? LF)%N then os_linesep else [c]) s.

(** Does a name match the glob pattern [*] followed by the literal
    [suffix]?  ([fnmatch], case-sensitive; [*] also matches the empty
    string and a leading dot.) *)
Definition fnmatch_star (suffix : string) (n : name) : bool :=
  let ls := String.length suffix in
  let ln := String.length n in
  (ls <=? ln) && String.eqb (substring (ln - ls) ls n) suffix.

(** [Path.rglob] below the directory [t] found at [here]: the matching
    entries of a directory, in listing order, then its subdirectories in
    listing order.  A matching entry is yielded whether it is a regular
    file or a directory.  The trees of the model hold regular files and
    directories that can be listed: symbolic links, hard links and
    directories that cannot be listed are outside the model. *)
Fixpoint rglob_from (suffix : string) (here : path) (t : node)
  : list path :=
  match t with
  | File _ => []
  | Dir es =>
      map (fun e => here ++ [fst e])
          (filter (fun e => fnmatch_star suffix (fst e)) es)
      ++ (fix subdirs (l : list (name * node)) : list path :=
            match l with
            | [] => []
            | (n, c) :: l' => rglob_from suffix (here ++ [n]) c ++ subdirs l'
            end) es
  end.

(** [root.rglob('*' + suffix)]; a root that is missing or is not a
    directory yields nothing. *)
Definition rglob (suffix : string) (root : path) (t : node) : list path :=
  match resolve root t with
  | inr (Dir es) => rglob_from suffix root (Dir es)
  | _ => []
  end.

End FS.

(* ================================================================== *)
(** * Script: the two functions of the file *)
(* ================================================================== *)

Module Script.
Import Text FS.

(** An [OSError] ([IOError] is its alias).  A failure of [open] carries
    the reason and the path; a failure of [write] or [close] carries the
    reason alone, its [filename] being [None]. *)
Inductive OSError : Type :=
| mkOSError (reason : errno) (filename : path)
| mkOSErrorPlain (reason : errno).

Definition err_no (e : OSError) : errno :=
  match e with mkOSError r _ | mkOSErrorPlain r => r end.


(** What the process did to the file system, in order. *)
Inductive event : Type :=
| EvOpenR (p : path)
| EvOpenW (p : path)
| EvWrite (p : path) (data : str).

Definition event_path (e : event) : path :=
  match e with EvOpenR p | EvOpenW p | EvWrite p _ => p end.

Record world : Type := mkWorld {
  fs : node;
  trace : list event;
  stdout : list string
}.

(** Python values the functions return. *)
Inductive pyval : Type :=
| PyNone
| PyInt (n : nat).

(** Computations that read and change the world and may raise. A raised
    exception keeps the changes made so far. *)
Definition M (A : Type) : Type := world -> (OSError + A) * world.

Definition ret {A} (a : A) : M A := fun w => (inr a, w).

Definition raise {A} (e : OSError) : M A := fun w => (inl e, w).

Definition bind {A B} (m : M A) (k : A -> M B) : M B :=
  fun w =>
    match m w with
    | (inr a, w') => k a w'
    | (inl e, w') => (inl e, w')
    end.

Notation "x <- m ;; k" := (bind m (fun x => k))
  (at level 100, m at next level, right associativity).
Notation "m ;;; k" := (bind m (fun _ => k))
  (at level 100, right associativity).

Definition log (e : event) : M unit :=
  fun w => (inr tt, mkWorld (fs w) (trace w ++ [e]) (stdout w)).

Definition print (line : string) : M unit :=
  fun w => (inr tt, mkWorld (fs w) (trace w) (stdout w ++ [line])).

Definition modify_fs (g : node -> node) : M unit :=
  fun w => (inr tt, mkWorld (g (fs w)) (trace w) (stdout w)).

Definition stat (p : path) : M (errno + node) :=
  fun w => (inr (resolve p (fs w)), w).

(** [list(root.rglob('*' + suffix))] *)
Definition list_rglob (suffix : string) (root : path) : M (list path) :=
  fun w => (inr (rglob suffix root (fs w)), w).

(** [with open(p, 'r', encoding='utf-8') as f: f.read()] *)
Definition read_text (p : path) : M str :=
  r <- stat p ;;
  match r with
  | inl e => raise (mkOSError e p)
  | inr (Dir _) => raise (mkOSError EISDIR p)
  | inr (File f) =>
      if f_readable f then
        log (EvOpenR p) ;;;
        ret (universal_newlines (f_data f))
      else raise (mkOSError EACCES p)
  end.

(** [open(p, 'w', encoding='utf-8')]: an existing file is truncated, a
    missing one is created in its directory. *)
Definition open_w (p : path) : M unit :=
  r <- stat p ;;
  match r with
  | inr (File f) =>
      if f_writable f then
        modify_fs (update p (set_data [])) ;;;
        log (EvOpenW p)
      else raise (mkOSError EACCES p)
  | inr (Dir _) => raise (mkOSError EISDIR p)
  | inl ENOENT =>
      d <- stat (removelast p) ;;
      match p, d with
      | _ :: _, inr (Dir _) =>
          modify_fs (update (removelast p)
                       (add_entry (last p EmptyString)
                          (File (mkFile [] true true)))) ;;;
          log (EvOpenW p)
      | _, _ => raise (mkOSError ENOENT p)
      end
  | inl e => raise (mkOSError e p)
  end.

(** The device under the tree.  Given what is stored, the file written
    and the characters to write, it takes them all ([None]) or fails with
    a reason after taking the first [k] of them (no space left, a quota or
    a file size limit). *)
Definition device : Type := node -> path -> str -> option (errno * nat).

(** A device that takes every write. *)
Definition sound_device : device := fun _ _ _ => None.

(** [f.write(content)] followed by the close at the end of the [with]
    block.  The text is buffered and reaches the device when the file is
    closed; if the device fails, what it took stays in the file, which
    [open] had truncated, and the [OSError] raised names no file.  What
    the device took is counted in characters: a cut inside the bytes of
    one character is outside the model. *)
Definition write_close_on (dev : device) (p : path) (content : str)
  : M unit :=
  fun w =>
    let chars := translate_newlines content in
    match dev (fs w) p chars with
    | None =>
        (modify_fs (update p (set_data chars)) ;;;
         log (EvWrite p content)) w
    | Some (reason, k) =>
        (modify_fs (update p (set_data (firstn k chars))) ;;;
         log (EvWrite p (firstn k chars)) ;;;
         raise (mkOSErrorPlain reason)) w
    end.

Definition write_close : path -> str -> M unit :=
  write_close_on sound_device.

Section Run.

Variable uni_isalnum : char -> bool.

(** Lines 11-21, over the device [dev].  The function has no [return]:
    it yields [None]. *)
Definition fix_dark_mode_contrast_on (dev : device) (file_path : path)
  : M pyval :=
  content <- read_text file_path ;;
  let content := re_sub uni_isalnum pattern replacement content in
  open_w file_path ;;;
  write_close_on dev file_path content ;;;
  ret PyNone.

(** The [for] loop of lines 30-31. *)
Fixpoint for_each_on (dev : device) (files : list path) : M unit :=
  match files with
  | [] => ret tt
  | file_path :: rest =>
      fix_dark_mode_contrast_on dev file_path ;;;
      for_each_on dev rest
  end.

(** The same on a device that takes every write. *)
Definition fix_dark_mode_contrast : path -> M pyval :=
  fix_dark_mode_contrast_on sound_device.

Definition for_each : list path -> M unit := for_each_on sound_device.

Definition src_dir : path := ["apps"; "frontend"; "src"]%string.

Definition decimal (n : nat) : string :=
  NilEmpty.string_of_uint (Nat.to_uint n).

(** The f-string of line 28. *)
Definition banner (n : nat) : string :=
  ("Fixing dark mode contrast in " ++ decimal n ++ " files...")%string.

Definition done_message : string := "Dark mode contrast fixes applied!".

(** Lines 23-33, over the device [dev]. *)
Definition main_on (dev : device) : M unit :=
  tsx_files <- list_rglob ".tsx" src_dir ;;
  print (banner (List.length tsx_files)) ;;;
  for_each_on dev tsx_files ;;;
  print done_message.

Definition main : M unit := main_on sound_device.

(** The process: exit status 0 when [main] returns, 1 with the
    exception on standard error when it escapes. *)
Record outcome : Type := mkOutcome {
  exit_status : nat;
  uncaught : option OSError;
  final : world
}.

Definition run_script_on (dev : device) (w : world) : outcome :=
  match main_on dev w with
  | (inr _, w') => mkOutcome 0 None w'
  | (inl e, w') => mkOutcome 1 (Some e) w'
  end.

Definition run_script : world -> outcome := run_script_on sound_device.

(** The paths [main] enumerates in [w]. *)
Definition enumerate (w : world) : list path :=
  rglob ".tsx" src_dir (fs w).

End Run.

(** A fresh process started in the tree [t]. *)
Definition start (t : node) : world := mkWorld t [] [].

End Script.

(* ================================================================== *)
(** * Requirements, as the specification words them *)
(* ================================================================== *)

Module Spec.
Import Text FS Script.

Section Requirements.

Variable uni_isalnum : char -> bool.

(** "Must NOT match it as a prefix of a longer token": a token made longer
    by [suffix] is not altered.  [ok] says which characters a token may
    continue with. *)
Definition longer_tokens_kept (ok : char -> bool) : Prop :=
  forall suffix : str,
    suffix <> [] ->
    forallb ok suffix = true ->
    rewrite_text uni_isalnum (token ++ suffix) = token ++ suffix.

(** A failure on one file does not keep the other files of the batch from
    being processed. *)
Definition batch_resilient (w : world) : Prop :=
  forall p f,
    In p (enumerate w) ->
    resolve p (fs w) = inr (File f) ->
    f_readable f = true -> f_writable f = true ->
    In (EvOpenW p) (trace (final (run_script uni_isalnum w))).








(** Every enumerated file is rewritten on disk on every run. *)
Definition every_file_rewritten (w : world) : Prop :=
  forall p,
    In p (enumerate w) ->
    In (EvOpenW p) (trace (final (run_script uni_isalnum w))).

(** Enumeration yields regular files only. *)
Definition enumerates_files_only (w : world) : Prop :=
  forall p, In p (enumerate w) -> exists f, resolve p (fs w) = inr (File f).

End Requirements.

End Spec.

(* ================================================================== *)
(** * Sample inputs *)
(* ================================================================== *)

Module Samples.
Import Text FS Script.

(** A table that counts no character outside ASCII as alphanumeric: enough
    for texts that are ASCII throughout. *)
Definition ascii_only : char -> bool := fun _ => false.

Definition plain (s : string) : node := File (mkFile (lit s) true true).

Definition unreadable (s : string) : node := File (mkFile (lit s) false true).

(** A working directory whose [apps/frontend/src] holds [entries]. *)
Definition project (entries : list (name * node)) : node :=
  Dir [("apps", Dir [("frontend", Dir [("src", Dir entries)])])]%string.

Definition in_src (n : name) : path := src_dir ++ [n].

Arguments in_src n%_string.

Definition two_lines : str :=
  token ++ [LF] ++ token ++ [48%N].


Definition tree_three : node :=
  project [("a.tsx", plain "dark:text-gray-700");
           ("b.tsx", unreadable "dark:text-gray-700");
           ("c.tsx", plain "dark:text-gray-700")]%string.



(** The line [<div className=...>] with the class in double quotes. *)
Definition div_line (class : str) : str :=
  lit "<div className=" ++ [34%N] ++ class ++ [34%N] ++ lit ">".

Definition tree_one_match : node :=
  project [("a.tsx", File (mkFile (div_line token) true true))]%string.

Definition tree_one_plain : node :=
  project [("a.tsx", plain "<div>")]%string.

Definition tree_mixed : node :=
  project [("a.tsx", plain "x"); ("b.ts", plain "dark:text-gray-700");
           ("c.tsx", plain "y")]%string.

Definition tree_read_only : node :=
  project [("a.tsx", File (mkFile (lit "<div>") true false))]%string.


Definition tree_dir_match : node :=
  project [("icons.tsx", Dir [("index.ts", plain "x")])]%string.

End Samples.

(* ================================================================== *)
(** * Notions used to state what a call and a run leave behind *)
(* ================================================================== *)

Module Effects.
Import Text FS Script.

(** Number of positions at which two texts differ (up to the shorter). *)
Fixpoint differences (a b : str) : nat :=
  match a, b with
  | x :: a', y :: b' => (if (x =? y)%N then 0 else 1) + differences a' b'
  | _, _ => 0
  end.

(** The file a call that goes through leaves in place of [f]: the
    substitution applied to the text read, same permissions. *)
Definition fixed_file (uni_isalnum : char -> bool) (f : file) : file :=
  mkFile (translate_newlines
            (rewrite_text uni_isalnum (universal_newlines (f_data f))))
         (f_readable f) (f_writable f).

(** What [open] finds at [p]: the permissions of a regular file, or
    nothing when [p] is missing or is a directory. *)
Definition access_at (p : path) (t : node) : option (bool * bool) :=
  match resolve p t with
  | inr (File f) => Some (f_readable f, f_writable f)
  | _ => None
  end.

(** The reason [open] gives for refusing [p]. *)
Definition refusal (p : path) (t : node) : errno :=
  match resolve p t with
  | inl e => e
  | inr (Dir _) => EISDIR
  | inr (File _) => EACCES
  end.

Definition path_eq_dec (p q : path) : {p = q} + {p <> q} :=
  list_eq_dec string_dec p q.



(** A device with no space left: it takes nothing of any write. *)
Definition full_device : device := fun _ _ _ => Some (ENOSPC, 0).

(** A tree with a component two directories below [apps/frontend/src]. *)
Definition tree_nested : node :=
  Samples.project
    [("ui", Dir [("forms", Dir [("Field.tsx", Samples.plain "x");
                                ("Field.css", Samples.plain "y")])])]%string.

End Effects.

(* ================================================================== *)
(** * Properties of the substitution *)
(* ================================================================== *)

Import Text FS Script.

Lemma starts_with_app (t post : str) : starts_with t (t ++ post) = true.
Proof.
  induction t as [|a t IH]; simpl; [reflexivity|].
  now rewrite N.eqb_refl.
Qed.

Lemma starts_with_inv (t s : str) :
  starts_with t s = true -> exists post, s = t ++ post.
Proof.
  revert s; induction t as [|a t IH]; intros s H.
  - now exists s.
  - destruct s as [|c s]; simpl in H; [discriminate|].
    apply andb_true_iff in H as [Hac Ht].
    apply N.eqb_eq in Hac; subst c.
    destruct (IH _ Ht) as [post ->].
    now exists post.
Qed.

Lemma skipn_length_app (A : Type) (t post : list A) :
  skipn (List.length t) (t ++ post) = post.
Proof. induction t; simpl; auto. Qed.

Section TextFacts.

Variable tbl : char -> bool.

Local Abbreviation is_word := (is_word tbl).
Local Abbreviation word_opt := (word_opt tbl).
Local Abbreviation exact_here := (exact_here tbl).
Local Abbreviation subn := (re_subn tbl pattern replacement).
Local Abbreviation rewrite_text := (rewrite_text tbl).
Local Abbreviation rewrite_count := (rewrite_count tbl).

(** ** The matcher on a literal prefix *)

Lemma match_here_literals (t : str) (q : list atom) :
  forall prev s,
    match_here tbl (map Lit t ++ q) prev s =
    if starts_with t s
    then option_map (Nat.add (List.length t))
           (match_here tbl q (last_seen t prev) (skipn (List.length t) s))
    else None.
Proof.
  induction t as [|a t IH]; intros prev s.
  - simpl. now destruct (match_here tbl q prev s).
  - destruct s as [|c s]; [reflexivity|].
    cbn [map app match_here starts_with List.length skipn last_seen].
    destruct (N.eqb_spec a c) as [->|]; [|reflexivity].
    rewrite IH. cbn [andb].
    destruct (starts_with t s); [|reflexivity].
    now destruct (match_here tbl q _ _).
Qed.

Lemma match_here_pattern (prev : option char) (s : str) :
  match_here tbl pattern prev s =
  if exact_here s then Some (List.length token) else None.
Proof.
  unfold pattern, Text.exact_here.
  rewrite match_here_literals.
  destruct (starts_with token s); [|reflexivity].
  cbn [andb match_here last_seen token].
  unfold at_boundary.
  change (Text.word_opt tbl (Some 48%N)) with true.
  rewrite xorb_true_l.
  now destruct (negb _).
Qed.

Lemma exact_here_nil : exact_here [] = false.
Proof. reflexivity. Qed.

Lemma exact_here_inv (s : str) :
  exact_here s = true ->
  exists post, s = token ++ post /\ word_opt (hd_error post) = false.
Proof.
  unfold Text.exact_here. intros H.
  apply andb_true_iff in H as [Hs Hb].
  destruct (starts_with_inv _ _ Hs) as [post ->].
  exists post. split; [reflexivity|].
  rewrite skipn_length_app in Hb.
  now apply negb_true_iff in Hb.
Qed.

Lemma exact_here_app (post : str) :
  exact_here (token ++ post) = negb (word_opt (hd_error post)).
Proof.
  unfold Text.exact_here.
  now rewrite starts_with_app, skipn_length_app.
Qed.

Lemma exact_here_head (c : char) (r : str) :
  c <> 100%N -> exact_here (c :: r) = false.
Proof.
  intros Hc. unfold Text.exact_here. cbn [token starts_with].
  destruct (N.eqb_spec 100 c) as [<-|]; [congruence|reflexivity].
Qed.

(** ** Unfolding the scan *)

Lemma subn_scan_cons (p : list atom) (repl : str) (prev : option char)
      (c : char) (s : str) :
  subn_scan tbl p repl 0 prev (c :: s) =
  match match_here tbl p prev (c :: s) with
  | Some (S n) =>
      let (o, k) := subn_scan tbl p repl n (Some c) s in (repl ++ o, S k)
  | Some 0 =>
      let (o, k) := subn_scan tbl p repl 0 (Some c) s in
      (repl ++ c :: o, S k)
  | None =>
      let (o, k) := subn_scan tbl p repl 0 (Some c) s in (c :: o, k)
  end.
Proof. reflexivity. Qed.

(** What stands before a position plays no part for this pattern: its
    only assertion follows a literal. *)
Lemma subn_scan_prev (k : nat) (prev prev' : option char) (s : str) :
  subn_scan tbl pattern replacement k prev s =
  subn_scan tbl pattern replacement k prev' s.
Proof.
  destruct s as [|c s].
  - cbn [subn_scan]. now rewrite !match_here_pattern, exact_here_nil.
  - destruct k as [|k]; [|reflexivity].
    now rewrite !subn_scan_cons, !match_here_pattern.
Qed.

Lemma subn_scan_skip (k : nat) :
  forall prev s,
    k <= List.length s ->
    subn_scan tbl pattern replacement k prev s = subn (skipn k s).
Proof.
  induction k as [|k IH]; intros prev s Hk.
  - apply subn_scan_prev.
  - destruct s as [|c s]; [simpl in Hk; lia|].
    cbn [subn_scan skipn]. apply IH. simpl in Hk. lia.
Qed.

Lemma subn_nil : subn [] = ([], 0).
Proof.
  unfold re_subn. cbn [subn_scan].
  now rewrite match_here_pattern, exact_here_nil.
Qed.

Lemma subn_hit (post : str) :
  word_opt (hd_error post) = false ->
  subn (token ++ post) =
  (replacement ++ fst (subn post), S (snd (subn post))).
Proof.
  intros Hb. unfold re_subn at 1.
  change (token ++ post) with (100%N :: tl token ++ post).
  rewrite subn_scan_cons, match_here_pattern.
  change (100%N :: tl token ++ post) with (token ++ post).
  rewrite exact_here_app, Hb. cbn [negb token List.length].
  rewrite subn_scan_skip by (rewrite length_app; simpl; lia).
  change 17 with (List.length (tl token)).
  rewrite skipn_length_app.
  now destruct (subn post).
Qed.

Lemma subn_miss (c : char) (r : str) :
  exact_here (c :: r) = false ->
  subn (c :: r) = (c :: fst (subn r), snd (subn r)).
Proof.
  intros Hm. unfold re_subn at 1.
  rewrite subn_scan_cons, match_here_pattern, Hm.
  rewrite (subn_scan_prev 0 (Some c) None).
  fold (subn r). now destruct (subn r).
Qed.

(** Induction along the scan: at a hit it jumps over the token, at a miss
    it moves one character on. *)
Lemma scan_ind (P : str -> Prop) :
  P [] ->
  (forall post, word_opt (hd_error post) = false ->
                P post -> P (token ++ post)) ->
  (forall c r, exact_here (c :: r) = false -> P r -> P (c :: r)) ->
  forall s, P s.
Proof.
  intros Hnil Hhit Hmiss s.
  remember (List.length s) as n eqn:Hn.
  revert s Hn. induction n as [n IH] using lt_wf_ind. intros s Hn.
  destruct s as [|c r]; [exact Hnil|].
  destruct (exact_here (c :: r)) eqn:E.
  - destruct (exact_here_inv _ E) as (post & Heq & Hb).
    rewrite Heq. apply Hhit; [exact Hb|].
    apply (IH (List.length post)); [|reflexivity].
    apply (f_equal (@List.length char)) in Heq.
    rewrite length_app in Heq. simpl in Heq. subst n. simpl. lia.
  - apply Hmiss; [exact E|].
    apply (IH (List.length r)); [|reflexivity].
    subst n. simpl. lia.
Qed.

(** Characters other than [d] cannot start a match. *)
Lemma subn_pass (u : str) (X : str) :
  Forall (fun c => c <> 100%N) u ->
  subn (u ++ X) = (u ++ fst (subn X), snd (subn X)).
Proof.
  induction 1 as [|c u Hc _ IH]; simpl.
  - now destruct (subn X).
  - rewrite subn_miss by (now apply exact_here_head).
    now rewrite IH.
Qed.

Lemma tl_token_no_d : Forall (fun c => c <> 100%N) (tl token).
Proof. repeat constructor; discriminate. Qed.

Lemma tl_replacement_no_d : Forall (fun c => c <> 100%N) (tl replacement).
Proof. repeat constructor; discriminate. Qed.

(** An occurrence followed by a word character is passed over whole. *)
Lemma subn_blocked (c : char) (post : str) :
  is_word c = true ->
  subn (token ++ c :: post) =
  (token ++ fst (subn (c :: post)), snd (subn (c :: post))).
Proof.
  intros Hc.
  change (token ++ c :: post) with (100%N :: tl token ++ c :: post).
  rewrite subn_miss.
  - now rewrite (subn_pass _ tl_token_no_d).
  - change (100%N :: tl token ++ c :: post) with (token ++ c :: post).
    rewrite exact_here_app. simpl. now rewrite Hc.
Qed.

(** The replacement never starts a match. *)
Lemma subn_replacement (X : str) :
  subn (replacement ++ X) = (replacement ++ fst (subn X), snd (subn X)).
Proof.
  change (replacement ++ X) with (100%N :: tl replacement ++ X).
  rewrite subn_miss by reflexivity.
  now rewrite (subn_pass _ tl_replacement_no_d).
Qed.

(** ** Occurrences at any position *)

Lemma token_tail_no_d (u v : str) : tl token <> u ++ 100%N :: v.
Proof.
  intros H.
  assert (Hin : In 100%N (tl token)) by (rewrite H; apply in_elt).
  now apply (proj1 (Forall_forall _ _) tl_token_no_d _ Hin).
Qed.

(** The text in front of a [d] is scanned on its own: no match reaches
    across, the token having no other [d]. *)
Lemma subn_split (pre Y : str) :
  exists o k,
    subn (pre ++ 100%N :: Y) =
    (o ++ fst (subn (100%N :: Y)), k + snd (subn (100%N :: Y)))
    /\ List.length o = List.length pre.
Proof.
  remember (S (List.length pre)) as n eqn:Hn.
  assert (Hlt : List.length pre < n) by lia. clear Hn.
  revert pre Hlt. induction n as [|n IH]; intros pre Hlt; [lia|].
  destruct pre as [|c p].
  - exists [], 0. split; [|reflexivity]. simpl.
    now destruct (subn (100%N :: Y)).
  - destruct (exact_here ((c :: p) ++ 100%N :: Y)) eqn:E.
    + destruct (exact_here_inv _ E) as (post & Heq & Hb).
      apply app_eq_app in Heq as [l [[H1 H2]|[H1 H2]]].
      * rewrite H1, <- app_assoc.
        assert (Hl : List.length l < n).
        { rewrite H1, length_app in Hlt. simpl in Hlt. lia. }
        destruct (IH l Hl) as (o & k & Ho & Hlen).
        exists (replacement ++ o), (S k).
        rewrite subn_hit by (now rewrite <- H2).
        rewrite Ho. simpl fst. simpl snd. rewrite <- app_assoc.
        split; [reflexivity|].
        rewrite !length_app, Hlen. reflexivity.
      * (* the token would have to reach the [d] *)
        exfalso. destruct l as [|x l].
        -- simpl in H2. subst post. discriminate Hb.
        -- simpl in H2. injection H2 as Hx _. subst x.
           apply (f_equal (@tl char)) in H1. simpl tl in H1.
           now apply token_tail_no_d in H1.
    + assert (Hp : List.length p < n) by (simpl in Hlt; lia).
      destruct (IH p Hp) as (o & k & Ho & Hlen).
      exists (c :: o), k.
      change ((c :: p) ++ 100%N :: Y) with (c :: p ++ 100%N :: Y) in *.
      rewrite subn_miss by exact E.
      rewrite Ho. simpl. now rewrite Hlen.
Qed.

(** ** What the scan may change: a [7] into a [3], nothing else *)

Lemma token_replacement_related : Forall2 same_or_fixed token replacement.
Proof.
  unfold token, replacement.
  repeat (constructor; [first [now left | now right]|]). constructor.
Qed.

Lemma rewrite_text_related (s : str) :
  Forall2 same_or_fixed s (rewrite_text s).
Proof.
  unfold Text.rewrite_text, re_sub.
  induction s as [|post Hb IH|c r Hm IH] using scan_ind.
  - rewrite subn_nil. constructor.
  - rewrite subn_hit by exact Hb. cbn [fst].
    apply Forall2_app; [apply token_replacement_related|exact IH].
  - rewrite subn_miss by exact Hm. cbn [fst].
    constructor; [now left|exact IH].
Qed.

Lemma related_no_3 (s t : str) :
  Forall2 same_or_fixed s t -> ~ In 51%N t -> s = t.
Proof.
  induction 1 as [|a b s t Hab _ IH]; intros Hin; [reflexivity|].
  f_equal.
  - destruct Hab as [|[_ ->]]; [assumption|]. exfalso. apply Hin. now left.
  - apply IH. intros H. apply Hin. now right.
Qed.

Lemma related_to_token (s : str) :
  Forall2 same_or_fixed s token -> s = token.
Proof.
  intros H. apply (related_no_3 H).
  unfold token. simpl. intuition discriminate.
Qed.

Lemma exact_here_related (s o : str) :
  Forall2 same_or_fixed s o -> exact_here o = true -> exact_here s = true.
Proof.
  intros HR Ho.
  destruct (exact_here_inv _ Ho) as (post & -> & Hb).
  apply Forall2_app_inv_r in HR as (s1 & s2 & H1 & H2 & ->).
  apply related_to_token in H1. subst s1.
  rewrite exact_here_app. apply negb_true_iff.
  destruct H2 as [|a b s2 post Hab _]; [reflexivity|].
  simpl in *. destruct Hab as [->|[_ ->]]; [exact Hb|discriminate Hb].
Qed.

(** ** Fixed point, count, and untouched texts *)

Lemma rewrite_text_nil : rewrite_text [] = [].
Proof. unfold Text.rewrite_text, re_sub. now rewrite subn_nil. Qed.

Lemma subn_fixed (s : str) :
  subn (rewrite_text s) = (rewrite_text s, 0).
Proof.
  unfold Text.rewrite_text, re_sub.
  induction s as [|post Hb IH|c r Hm IH] using scan_ind.
  - now rewrite !subn_nil.
  - rewrite subn_hit by exact Hb. cbn [fst].
    now rewrite subn_replacement, IH.
  - rewrite subn_miss by exact Hm. cbn [fst].
    rewrite subn_miss, IH; [reflexivity|].
    destruct (exact_here (c :: fst (subn r))) eqn:E; [|reflexivity].
    rewrite <- Hm. symmetry.
    apply (exact_here_related (o := c :: fst (subn r))); [|exact E].
    constructor; [now left|apply rewrite_text_related].
Qed.



(** A text in which every occurrence of the token runs on into a word
    character is left as it is. *)
Lemma subn_untouched (s : str) :
  (forall pre post, s = pre ++ token ++ post ->
                    word_opt (hd_error post) = true) ->
  subn s = (s, 0).
Proof.
  induction s as [|c r IH]; intros Hno; [apply subn_nil|].
  rewrite subn_miss.
  - rewrite IH; [reflexivity|].
    intros pre post ->. now apply (Hno (c :: pre) post).
  - destruct (exact_here (c :: r)) eqn:E; [|reflexivity].
    destruct (exact_here_inv _ E) as (post & Heq & Hb).
    now rewrite (Hno [] post Heq) in Hb.
Qed.

Lemma rewrite_text_length (s : str) :
  List.length (rewrite_text s) = List.length s.
Proof. symmetry. apply (Forall2_length (rewrite_text_related s)). Qed.

Lemma rewrite_text_no_CR (s : str) :
  ~ In CR s -> ~ In CR (rewrite_text s).
Proof.
  generalize (rewrite_text_related s).
  induction 1 as [|a b s o Hab _ IH]; intros Hs Ho; [exact Ho|].
  destruct Ho as [Hb|Ho].
  - destruct Hab as [->|[_ ->]]; [|discriminate Hb].
    apply Hs. now left.
  - apply IH; [|exact Ho]. intros H. apply Hs. now right.
Qed.

(** ** An occurrence anywhere in a text *)

Lemma is_word_d : is_word 100%N = true.
Proof. reflexivity. Qed.

Lemma occurrence_replaced (pre post : str) :
  word_opt (hd_error post) = false ->
  exists o,
    rewrite_text (pre ++ token ++ post)
    = o ++ replacement ++ rewrite_text post
    /\ List.length o = List.length pre.
Proof.
  intros Hb.
  destruct (subn_split pre (tl token ++ post)) as (o & k & Ho & Hlen).
  exists o. split; [|exact Hlen].
  unfold Text.rewrite_text, re_sub.
  change (token ++ post) with (100%N :: tl token ++ post).
  rewrite Ho. cbn [fst]. f_equal.
  change (100%N :: tl token ++ post) with (token ++ post).
  now rewrite subn_hit.
Qed.

Lemma occurrence_kept (pre : str) (c : char) (post : str) :
  is_word c = true ->
  exists o,
    rewrite_text (pre ++ token ++ c :: post)
    = o ++ token ++ rewrite_text (c :: post)
    /\ List.length o = List.length pre.
Proof.
  intros Hc.
  destruct (subn_split pre (tl token ++ c :: post)) as (o & k & Ho & Hlen).
  exists o. split; [|exact Hlen].
  unfold Text.rewrite_text, re_sub.
  change (token ++ c :: post) with (100%N :: tl token ++ c :: post).
  rewrite Ho. cbn [fst]. f_equal.
  change (100%N :: tl token ++ c :: post) with (token ++ c :: post).
  now rewrite subn_blocked.
Qed.

Lemma rewrite_text_nonword (c : char) (post : str) :
  is_word c = false ->
  rewrite_text (c :: post) = c :: rewrite_text post.
Proof.
  intros Hc. unfold Text.rewrite_text, re_sub.
  rewrite subn_miss; [reflexivity|].
  apply exact_here_head. intros ->. now rewrite is_word_d in Hc.
Qed.

(** A run of word characters holds no [:], hence no token. *)
Lemma word_run_no_token (s pre post : str) :
  forallb is_word s = true -> s <> pre ++ token ++ post.
Proof.
  intros Hw ->.
  assert (Hin : In 58%N (pre ++ token ++ post)).
  { apply in_or_app. right. apply in_or_app. left.
    unfold token. simpl. tauto. }
  apply (proj1 (forallb_forall _ _) Hw) in Hin. discriminate Hin.
Qed.

Lemma word_suffix_kept (suffix : str) :
  suffix <> [] ->
  forallb is_word suffix = true ->
  rewrite_text (token ++ suffix) = token ++ suffix.
Proof.
  intros Hne Hw. destruct suffix as [|c post]; [congruence|].
  unfold Text.rewrite_text, re_sub.
  rewrite subn_blocked by (simpl in Hw; now apply andb_true_iff in Hw).
  cbn [fst]. f_equal.
  rewrite subn_untouched; [reflexivity|].
  intros pre post' H. now apply word_run_no_token in H.
Qed.

End TextFacts.

(** ** Newline translation *)

Lemma universal_newlines_no_CR (s : str) : ~ In CR (universal_newlines s).
Proof.
  remember (S (List.length s)) as n eqn:Hn.
  assert (Hlt : List.length s < n) by lia. clear Hn.
  revert s Hlt. induction n as [|n IH]; intros s Hlt; [lia|].
  destruct s as [|c s]; [intros []|].
  cbn [universal_newlines].
  destruct (N.eqb_spec c CR) as [->|Hc].
  - intros [H|H]; [discriminate H|]. revert H.
    destruct s as [|d s]; [intros []|].
    simpl in Hlt.
    destruct (d =? LF)%N; apply IH; simpl; lia.
  - intros [H|H]; [congruence|]. revert H. apply IH. simpl in Hlt. lia.
Qed.

Lemma universal_newlines_id (s : str) :
  ~ In CR s -> universal_newlines s = s.
Proof.
  induction s as [|c s IH]; intros H; [reflexivity|].
  cbn [universal_newlines].
  destruct (N.eqb_spec c CR) as [->|_].
  - exfalso. apply H. now left.
  - f_equal. apply IH. intros Hin. apply H. now right.
Qed.

Lemma translate_newlines_id (s : str) : translate_newlines s = s.
Proof.
  unfold translate_newlines, os_linesep.
  induction s as [|c s IH]; [reflexivity|].
  cbn [flat_map]. rewrite IH.
  destruct (N.eqb_spec c LF) as [->|_]; reflexivity.
Qed.

(* ================================================================== *)
(** * Properties of the directory tree *)
(* ================================================================== *)

Lemma find_update_entry (n : name) (g : node -> node)
      (es : list (name * node)) :
  find_entry n (update_entry n g es) = option_map g (find_entry n es).
Proof.
  induction es as [|[m c] es IH]; [reflexivity|].
  simpl. destruct (String.eqb n m) eqn:E; simpl; rewrite E; auto.
Qed.

Lemma update_entry_ext (n : name) (g h : node -> node)
      (es : list (name * node)) :
  (forall c, g c = h c) -> update_entry n g es = update_entry n h es.
Proof.
  intros Hgh. induction es as [|[m c] es IH]; [reflexivity|].
  simpl. destruct (String.eqb n m); [now rewrite Hgh|now rewrite IH].
Qed.

Lemma update_entry_twice (n : name) (g h : node -> node)
      (es : list (name * node)) :
  update_entry n g (update_entry n h es)
  = update_entry n (fun c => g (h c)) es.
Proof.
  induction es as [|[m c] es IH]; [reflexivity|].
  simpl. destruct (String.eqb n m) eqn:E; simpl; rewrite E;
    [reflexivity|now rewrite IH].
Qed.

Lemma update_entry_id (n : name) (g : node -> node)
      (es : list (name * node)) (c : node) :
  find_entry n es = Some c -> g c = c -> update_entry n g es = es.
Proof.
  intros Hf Hg. induction es as [|[m d] es IH]; [reflexivity|].
  simpl in *. destruct (String.eqb n m).
  - injection Hf as ->. now rewrite Hg.
  - now rewrite IH.
Qed.

Lemma update_ext (p : path) (g h : node -> node) (t : node) :
  (forall c, g c = h c) -> update p g t = update p h t.
Proof.
  intros Hgh. revert t. induction p as [|n p IH]; intros t; simpl.
  - apply Hgh.
  - destruct t as [f|es]; [reflexivity|].
    f_equal. now apply update_entry_ext.
Qed.

Lemma update_twice (p : path) (g h : node -> node) (t : node) :
  update p g (update p h t) = update p (fun c => g (h c)) t.
Proof.
  revert t. induction p as [|n p IH]; intros t; simpl; [reflexivity|].
  destruct t as [f|es]; [reflexivity|]. simpl.
  f_equal. rewrite update_entry_twice. now apply update_entry_ext.
Qed.

Lemma resolve_update (p : path) (g : node -> node) (t c : node) :
  resolve p t = inr c -> resolve p (update p g t) = inr (g c).
Proof.
  revert t. induction p as [|n p IH]; intros t H; simpl in *.
  - now injection H as ->.
  - destruct t as [f|es]; [discriminate|]. simpl.
    rewrite find_update_entry.
    destruct (find_entry n es) as [d|]; [|discriminate].
    simpl. now apply IH.
Qed.

Lemma update_id (p : path) (g : node -> node) (t c : node) :
  resolve p t = inr c -> g c = c -> update p g t = t.
Proof.
  revert t. induction p as [|n p IH]; intros t H Hg; simpl in *.
  - now injection H as ->.
  - destruct t as [f|es]; [reflexivity|].
    destruct (find_entry n es) as [d|] eqn:Hf; [|discriminate].
    f_equal. apply update_entry_id with (c := d); [exact Hf|]. now apply IH.
Qed.

Lemma set_data_twice (d e : str) (c : node) :
  set_data d (set_data e c) = set_data d c.
Proof. now destruct c. Qed.

(** Writing [d] over whatever an earlier write left at [p]. *)
Lemma overwrite (p : path) (d e : str) (t : node) :
  update p (set_data d) (update p (set_data e) t) = update p (set_data d) t.
Proof.
  rewrite update_twice. apply update_ext. intros c. apply set_data_twice.
Qed.

(* ================================================================== *)
(** * Properties of the script *)
(* ================================================================== *)

(** ** One call, on any device *)

Lemma fix_on_eq (tbl : char -> bool) (dev : device) (p : path)
      (w : world) :
  fix_dark_mode_contrast_on tbl dev p w =
  match resolve p (fs w) with
  | inl e => (inl (mkOSError e p), w)
  | inr (Dir _) => (inl (mkOSError EISDIR p), w)
  | inr (File f) =>
      let content := rewrite_text tbl (universal_newlines (f_data f)) in
      let chars := translate_newlines content in
      if f_readable f then
        if f_writable f then
          match dev (update p (set_data []) (fs w)) p chars with
          | None =>
              (inr PyNone,
               mkWorld (update p (set_data chars) (fs w))
                       (trace w ++ [EvOpenR p; EvOpenW p; EvWrite p content])
                       (stdout w))
          | Some (reason, k) =>
              (inl (mkOSErrorPlain reason),
               mkWorld (update p (set_data (firstn k chars)) (fs w))
                       (trace w ++ [EvOpenR p; EvOpenW p;
                                    EvWrite p (firstn k chars)])
                       (stdout w))
          end
        else (inl (mkOSError EACCES p),
              mkWorld (fs w) (trace w ++ [EvOpenR p]) (stdout w))
      else (inl (mkOSError EACCES p), w)
  end.
Proof.
  destruct w as [t tr out].
  unfold fix_dark_mode_contrast_on, read_text, open_w, write_close_on, bind,
    stat, log, ret, raise, modify_fs.
  cbn [fs trace stdout].
  destruct (resolve p t) as [e|[f|es]] eqn:R; try reflexivity.
  destruct (f_readable f); [|reflexivity].
  cbn [fs trace stdout]. rewrite R.
  destruct (f_writable f); [|reflexivity].
  cbn [fs trace stdout]. cbn zeta.
  unfold rewrite_text.
  destruct (dev _ p _) as [[reason k]|];
    cbn [fs trace stdout]; rewrite overwrite; now rewrite <- !app_assoc.
Qed.

Section ScriptFacts.

Variable tbl : char -> bool.

Local Abbreviation fix_file := (fix_dark_mode_contrast tbl).
Local Abbreviation rewrite_text := (rewrite_text tbl).

(** The content [fix_dark_mode_contrast] computes for a file. *)
Lemma fix_file_eq (p : path) (w : world) :
  fix_file p w =
  match resolve p (fs w) with
  | inl e => (inl (mkOSError e p), w)
  | inr (Dir _) => (inl (mkOSError EISDIR p), w)
  | inr (File f) =>
      let content := rewrite_text (universal_newlines (f_data f)) in
      if f_readable f then
        if f_writable f then
          (inr PyNone,
           mkWorld (update p (set_data (translate_newlines content)) (fs w))
                   (trace w ++ [EvOpenR p; EvOpenW p; EvWrite p content])
                   (stdout w))
        else (inl (mkOSError EACCES p),
              mkWorld (fs w) (trace w ++ [EvOpenR p]) (stdout w))
      else (inl (mkOSError EACCES p), w)
  end.
Proof.
  unfold fix_dark_mode_contrast. rewrite fix_on_eq.
  now destruct (resolve p (fs w)) as [e|[f|es]].
Qed.

Lemma for_each_cons (p : path) (rest : list path) :
  for_each tbl (p :: rest) = (fix_file p ;;; for_each tbl rest).
Proof. reflexivity. Qed.

Lemma run_script_unfold (w : world) :
  run_script tbl w =
  match main tbl w with
  | (inr _, w') => mkOutcome 0 None w'
  | (inl e, w') => mkOutcome 1 (Some e) w'
  end.
Proof. reflexivity. Qed.


(** A call that returns has opened the file for reading, then for
    writing, and written it, in that order, and returns [None]. *)
Lemma fix_file_success (p : path) (w w' : world) (v : pyval) :
  fix_file p w = (inr v, w') ->
  v = PyNone /\ stdout w' = stdout w
  /\ exists content,
       trace w' = trace w ++ [EvOpenR p; EvOpenW p; EvWrite p content].
Proof.
  rewrite fix_file_eq.
  destruct (resolve p (fs w)) as [e0|[f|es]]; try discriminate.
  cbn zeta. destruct (f_readable f); [destruct (f_writable f)|];
    try discriminate.
  intros H. injection H as <- <-. simpl. eauto.
Qed.

Lemma for_each_app (a b : list path) (w : world) :
  for_each tbl (a ++ b) w =
  match for_each tbl a w with
  | (inr _, w1) => for_each tbl b w1
  | (inl e, w1) => (inl e, w1)
  end.
Proof.
  revert w. induction a as [|p a IH]; intros w; [reflexivity|].
  cbn [app]. rewrite !for_each_cons. unfold bind.
  destruct (fix_file p w) as [[e|v] w1]; [reflexivity|apply IH].
Qed.


(** The shape of the trace of a loop that runs to its end: three events
    per file, in the order of the list. *)
Lemma for_each_trace (files : list path) :
  forall w w',
    for_each tbl files w = (inr tt, w') ->
    exists new,
      trace w' = trace w ++ new
      /\ map event_path new = flat_map (fun p => [p; p; p]) files
      /\ map event_path (filter (fun e => match e with
                                          | EvOpenW _ => true
                                          | _ => false
                                          end) new) = files.
Proof.
  induction files as [|p files IH]; intros w w' H.
  - injection H as <-. exists []. now rewrite app_nil_r.
  - rewrite for_each_cons in H. unfold bind in H.
    destruct (fix_file p w) as [[e|v] w1] eqn:E; [discriminate|].
    destruct (fix_file_success _ _ E) as (_ & _ & content & Ht).
    destruct (IH _ _ H) as (new & Hn & Hp & Hw).
    exists ([EvOpenR p; EvOpenW p; EvWrite p content] ++ new).
    rewrite Hn, Ht, <- app_assoc. split; [reflexivity|].
    simpl. now rewrite Hp, Hw.
Qed.

Lemma main_eq (w : world) :
  main tbl w =
  let files := enumerate w in
  match for_each tbl files
          (mkWorld (fs w) (trace w)
                   (stdout w ++ [banner (List.length files)])) with
  | (inr _, w1) =>
      (inr tt,
       mkWorld (fs w1) (trace w1)
               (stdout w1 ++ [done_message]))
  | (inl e, w1) => (inl e, w1)
  end.
Proof.
  unfold main, main_on, bind, list_rglob, print, enumerate. cbn zeta.
  fold (for_each tbl).
  now destruct (for_each tbl _ _) as [[e|[]] w1].
Qed.

End ScriptFacts.

(* ================================================================== *)
(** * The script on any device *)
(* ================================================================== *)

Import Effects.

Section OnDevice.

Variable tbl : char -> bool.
Variable dev : device.

Local Abbreviation fix_on := (fix_dark_mode_contrast_on tbl dev).
Local Abbreviation loop_on := (for_each_on tbl dev).

(** A call that returns did what it does on a device that takes every
    write. *)
Lemma fix_on_returns (p : path) (w w' : world) (v : pyval) :
  fix_on p w = (inr v, w') ->
  fix_dark_mode_contrast tbl p w = (inr v, w').
Proof.
  rewrite fix_on_eq, fix_file_eq.
  destruct (resolve p (fs w)) as [e|[f|es]]; try discriminate.
  cbn zeta. destruct (f_readable f); [destruct (f_writable f)|];
    try discriminate.
  now destruct (dev _ p _) as [[reason k]|].
Qed.

(** A call that raises: either [open] refused the path, nothing is changed
    and the exception names the path; or the file was accessible, the
    device failed, and the file is left with what the device took. *)
Lemma fix_on_failure (p : path) (w w' : world) (e : OSError) :
  fix_on p w = (inl e, w') ->
  stdout w' = stdout w
  /\ (forall ev, In ev (trace w') -> In ev (trace w) \/ event_path ev = p)
  /\ (access_at p (fs w) <> Some (true, true) ->
      fs w' = fs w /\ e = mkOSError (refusal p (fs w)) p)
  /\ (access_at p (fs w) = Some (true, true) ->
      exists f reason k,
        resolve p (fs w) = inr (File f)
        /\ e = mkOSErrorPlain reason
        /\ resolve p (fs w')
           = inr (File (mkFile
                          (firstn k (translate_newlines
                                       (rewrite_text tbl
                                          (universal_newlines (f_data f)))))
                          true true))).
Proof.
  rewrite fix_on_eq. unfold access_at, refusal.
  destruct (resolve p (fs w)) as [e0|[f|es]] eqn:R.
  - intros H. injection H as <- <-.
    repeat split; auto; intros H; discriminate H.
  - cbn zeta. destruct (f_readable f) eqn:Hr;
      [destruct (f_writable f) eqn:Hw|].
    + destruct (dev _ p _) as [[reason k]|]; [|discriminate].
      intros H. injection H as <- <-. cbn [fs trace stdout].
      split; [reflexivity|]. split; [|split].
      * intros ev Hev. apply in_app_or in Hev as [Hev|Hev]; [now left|].
        right. simpl in Hev. intuition (subst; reflexivity).
      * intros H. now destruct H.
      * intros _. exists f, reason, k.
        split; [reflexivity|]. split; [reflexivity|].
        rewrite (resolve_update _ _ _ R).
        destruct f as [d r wr]. simpl in Hr, Hw. now subst.
    + intros H. injection H as <- <-. cbn [fs trace stdout].
      split; [reflexivity|]. split; [|split].
      * intros ev Hev. apply in_app_or in Hev as [Hev|[<-|[]]]; auto.
      * intros _. now split.
      * intros H. discriminate H.
    + intros H. injection H as <- <-.
      split; [reflexivity|]. split; [auto|split].
      * intros _. now split.
      * intros H. discriminate H.
  - intros H. injection H as <- <-.
    repeat split; auto; intros H; discriminate H.
Qed.

Lemma loop_on_cons (p : path) (rest : list path) :
  loop_on (p :: rest) = (fix_on p ;;; loop_on rest).
Proof. reflexivity. Qed.

Lemma loop_on_app (a b : list path) (w : world) :
  loop_on (a ++ b) w =
  match loop_on a w with
  | (inr _, w1) => loop_on b w1
  | (inl e, w1) => (inl e, w1)
  end.
Proof.
  revert w. induction a as [|p a IH]; intros w; [reflexivity|].
  cbn [app]. rewrite !loop_on_cons. unfold bind.
  destruct (fix_on p w) as [[e|v] w1]; [reflexivity|apply IH].
Qed.

Lemma loop_on_returns (files : list path) :
  forall w w',
    loop_on files w = (inr tt, w') -> for_each tbl files w = (inr tt, w').
Proof.
  induction files as [|p files IH]; intros w w' H; [exact H|].
  rewrite loop_on_cons in H. rewrite for_each_cons. unfold bind in *.
  destruct (fix_on p w) as [[e|v] w1] eqn:E; [discriminate H|].
  rewrite (fix_on_returns _ _ E). now apply IH.
Qed.

(** However the loop ends, it has printed nothing and its events are on
    listed paths. *)
Lemma loop_on_effects (files : list path) :
  forall w,
    stdout (snd (loop_on files w)) = stdout w
    /\ forall ev, In ev (trace (snd (loop_on files w))) ->
                  In ev (trace w) \/ In (event_path ev) files.
Proof.
  induction files as [|p files IH]; intros w; [split; auto|].
  rewrite loop_on_cons. unfold bind.
  destruct (fix_on p w) as [[e|v] w1] eqn:E; cbn [snd].
  - destruct (fix_on_failure _ _ E) as (Hout & Htr & _).
    split; [exact Hout|].
    intros ev Hev. destruct (Htr ev Hev) as [H|H]; [now left|].
    right. left. now rewrite H.
  - apply fix_on_returns in E.
    destruct (fix_file_success _ _ _ E) as (_ & Hout & content & Htr).
    destruct (IH w1) as [Hs Ht]. split; [now rewrite Hs|].
    intros ev Hev. destruct (Ht ev Hev) as [H|H]; [|right; now right].
    rewrite Htr in H. apply in_app_or in H as [H|H]; [now left|].
    right. left. simpl in H. intuition (subst; reflexivity).
Qed.

Lemma run_script_on_eq (w : world) :
  run_script_on tbl dev w
  = match loop_on (enumerate w)
            (mkWorld (fs w) (trace w)
                     (stdout w ++ [banner (List.length (enumerate w))])) with
    | (inr _, w1) =>
        mkOutcome 0 None
          (mkWorld (fs w1) (trace w1) (stdout w1 ++ [done_message]))
    | (inl e, w1) => mkOutcome 1 (Some e) w1
    end.
Proof.
  unfold run_script_on, main_on, bind, list_rglob, print, enumerate.
  cbn zeta. now destruct (for_each_on tbl dev _ _) as [[e|[]] w1].
Qed.

(** A run that completes did what it does on a device that takes every
    write. *)
Lemma run_script_on_completes (w : world) :
  exit_status (run_script_on tbl dev w) = 0 ->
  run_script_on tbl dev w = run_script tbl w
  /\ exists w',
       for_each tbl (enumerate w)
         (mkWorld (fs w) (trace w)
                  (stdout w ++ [banner (List.length (enumerate w))]))
       = (inr tt, w').
Proof.
  rewrite run_script_on_eq, run_script_unfold, main_eq. cbn zeta.
  destruct (loop_on _ _) as [[e|[]] w1] eqn:L; [discriminate|].
  intros _. apply loop_on_returns in L. rewrite L. split; [reflexivity|].
  now exists w1.
Qed.

End OnDevice.

(* ================================================================== *)
(** * Main results *)
(* ================================================================== *)

Import Samples.

(** ** Token boundaries *)

(** C1, as stated, fails: [dark:text-gray-700-x] is a longer token that
    merely starts with the target's characters, and the substitution
    turns it into [dark:text-gray-300-x]. *)
Lemma longer_token_altered :
  ~ Spec.longer_tokens_kept ascii_only (is_token_char ascii_only).
Proof.
  intros H.
  specialize (H (lit "-x") ltac:(discriminate) eq_refl).
  vm_compute in H. discriminate H.
Qed.

(** C1, amended: in every text, an occurrence of [dark:text-gray-700]
    that is not followed by a word character is replaced by
    [dark:text-gray-300]; an occurrence followed by a word character is
    left standing; a token made longer by word characters only (such as
    [dark:text-gray-7000]) is unchanged; and the two-line example comes
    out with line 1 replaced and line 2 unchanged. *)
Theorem token_boundary (tbl : char -> bool) :
  (forall pre post,
      word_opt tbl (hd_error post) = false ->
      exists o,
        rewrite_text tbl (pre ++ token ++ post)
        = o ++ replacement ++ rewrite_text tbl post
        /\ List.length o = List.length pre)
  /\ (forall pre c post,
         is_word tbl c = true ->
         exists o,
           rewrite_text tbl (pre ++ token ++ c :: post)
           = o ++ token ++ rewrite_text tbl (c :: post)
           /\ List.length o = List.length pre)
  /\ Spec.longer_tokens_kept tbl (is_word tbl)
  /\ rewrite_text tbl two_lines
     = replacement ++ [LF] ++ token ++ [48%N].
Proof.
  split; [|split; [|split]].
  - apply occurrence_replaced.
  - apply occurrence_kept.
  - intros suffix. apply word_suffix_kept.
  - reflexivity.
Qed.

Lemma token_boundary_witness :
  (exists o,
      rewrite_text ascii_only (lit "x " ++ token ++ lit " y")
      = o ++ replacement ++ rewrite_text ascii_only (lit " y")
      /\ List.length o = 2)
  /\ (exists o,
         rewrite_text ascii_only (lit "x " ++ token ++ 48%N :: lit " y")
         = o ++ token ++ rewrite_text ascii_only (48%N :: lit " y")
         /\ List.length o = 2)
  /\ rewrite_text ascii_only (token ++ lit "0") = token ++ lit "0".
Proof.
  destruct (token_boundary ascii_only) as (A & B & C & _).
  split; [|split].
  - apply (A (lit "x ") (lit " y")). reflexivity.
  - apply (B (lit "x ") 48%N (lit " y")). reflexivity.
  - apply (C (lit "0")); [discriminate|reflexivity].
Defined.

(** C10: the check after the token blocks word characters only.  An
    occurrence followed by any non-word character is replaced and that
    character kept; [/], [-] and the double quote are such characters;
    [dark:text-gray-700/50] becomes [dark:text-gray-300/50]; and at the
    head of a text the token followed by [c] is an exact occurrence
    precisely when [c] is not a word character. *)
Theorem nonword_follower_replaced (tbl : char -> bool) :
  (forall pre c post,
      is_word tbl c = false ->
      exists o,
        rewrite_text tbl (pre ++ token ++ c :: post)
        = o ++ replacement ++ c :: rewrite_text tbl post
        /\ List.length o = List.length pre)
  /\ (is_word tbl 47%N = false /\ is_word tbl 45%N = false
      /\ is_word tbl 34%N = false)
  /\ rewrite_text tbl (token ++ lit "/50") = replacement ++ lit "/50"
  /\ (forall c post,
         exact_here tbl (token ++ c :: post) = negb (is_word tbl c)).
Proof.
  split; [|split; [|split]].
  - intros pre c post Hc.
    destruct (occurrence_replaced tbl pre (c :: post) Hc) as (o & Ho & Hlen).
    exists o. split; [|exact Hlen].
    now rewrite Ho, rewrite_text_nonword.
  - repeat split.
  - reflexivity.
  - intros c post. apply exact_here_app.
Qed.

Lemma nonword_follower_replaced_witness :
  exists o,
    rewrite_text ascii_only (lit "a " ++ token ++ 45%N :: lit "b")
    = o ++ replacement ++ 45%N :: rewrite_text ascii_only (lit "b")
    /\ List.length o = 2.
Proof.
  destruct (nonword_follower_replaced ascii_only) as (A & _).
  apply (A (lit "a ") 45%N (lit "b")). reflexivity.
Defined.

(** ** Rewriting one file *)








(** What a call that goes through leaves on disk is text the substitution
    no longer changes, and it reads back as it was written. *)
Lemma written_text_stable (tbl : char -> bool) (d : str) :
  let x := translate_newlines (rewrite_text tbl (universal_newlines d)) in
  universal_newlines x = x
  /\ re_subn tbl pattern replacement x = (x, 0).
Proof.
  cbn zeta. rewrite translate_newlines_id. split.
  - apply universal_newlines_id, rewrite_text_no_CR,
      universal_newlines_no_CR.
  - apply subn_fixed.
Qed.

(** The tree after a second call is the tree after the first. *)
Lemma fix_file_twice (tbl : char -> bool) (p : path) (w : world) :
  fs (snd (fix_dark_mode_contrast tbl p
             (snd (fix_dark_mode_contrast tbl p w))))
  = fs (snd (fix_dark_mode_contrast tbl p w)).
Proof.
  rewrite (fix_file_eq tbl p w).
  destruct (resolve p (fs w)) as [e|[f|es]] eqn:R.
  - cbn [snd]. now rewrite fix_file_eq, R.
  - cbn zeta. destruct (f_readable f) eqn:Hr;
      [destruct (f_writable f) eqn:Hw|]; cbn [snd].
    + rewrite fix_file_eq. cbn [fs].
      rewrite (resolve_update _ _ _ R). cbn [set_data f_data f_readable
                                               f_writable].
      rewrite Hr, Hw. cbn zeta. cbn [snd fs].
      destruct (written_text_stable tbl (f_data f)) as [-> Hs].
      unfold rewrite_text at 1, re_sub. rewrite Hs. cbn [fst].
      rewrite translate_newlines_id at 1. apply overwrite.
    + rewrite fix_file_eq. cbn [fs]. rewrite R. cbn zeta.
      now rewrite Hr, Hw.
    + rewrite fix_file_eq, R. cbn zeta. now rewrite Hr.
  - cbn [snd]. now rewrite fix_file_eq, R.
Qed.

(** C7: rewriting is idempotent.  On the text, a second substitution
    returns its input and makes 0 replacements, the replacement itself
    holding no match.  On a file, a second call leaves the tree as the
    first call left it; and when the file is accessible both calls go
    through, the second reading a content in which it makes 0
    replacements. *)
Theorem rewrite_idempotent (tbl : char -> bool) (p : path) (w : world)
        (f : file) :
  resolve p (fs w) = inr (File f) ->
  f_readable f = true -> f_writable f = true ->
  let w1 := snd (fix_dark_mode_contrast tbl p w) in
  let w2 := snd (fix_dark_mode_contrast tbl p w1) in
  (forall s, rewrite_text tbl (rewrite_text tbl s) = rewrite_text tbl s
             /\ rewrite_count tbl (rewrite_text tbl s) = 0)
  /\ rewrite_count tbl replacement = 0
  /\ fst (fix_dark_mode_contrast tbl p w) = inr PyNone
  /\ fst (fix_dark_mode_contrast tbl p w1) = inr PyNone
  /\ fs w2 = fs w1
  /\ exists f1,
       resolve p (fs w1) = inr (File f1)
       /\ rewrite_count tbl (universal_newlines (f_data f1)) = 0.
Proof.
  intros R Hr Hw w1 w2.
  assert (R1 : resolve p (fs w1)
               = inr (File (mkFile
                              (translate_newlines
                                 (rewrite_text tbl
                                    (universal_newlines (f_data f))))
                              true true))).
  { subst w1. rewrite fix_file_eq, R. cbn zeta. rewrite Hr, Hw.
    cbn [snd fs]. rewrite (resolve_update _ _ _ R).
    destruct f as [d r wr]. simpl in Hr, Hw. now subst. }
  split; [|split; [|split; [|split; [|split]]]].
  - intros s.
    split; [unfold rewrite_text at 1, re_sub|unfold rewrite_count];
      now rewrite subn_fixed.
  - reflexivity.
  - rewrite fix_file_eq, R. cbn zeta. now rewrite Hr, Hw.
  - rewrite fix_file_eq, R1. reflexivity.
  - apply fix_file_twice.
  - eexists. split; [exact R1|]. cbn [f_data].
    destruct (written_text_stable tbl (f_data f)) as [-> Hs].
    unfold rewrite_count. now rewrite Hs.
Qed.

Lemma rewrite_idempotent_witness :
  let w1 := snd (fix_dark_mode_contrast ascii_only (in_src "a.tsx")
                   (start tree_one_match)) in
  fs (snd (fix_dark_mode_contrast ascii_only (in_src "a.tsx") w1)) = fs w1
  /\ fst (fix_dark_mode_contrast ascii_only (in_src "a.tsx") w1)
     = inr PyNone.
Proof.
  destruct (@rewrite_idempotent ascii_only (in_src "a.tsx")
              (start tree_one_match) (mkFile (div_line token) true true)
              eq_refl eq_refl eq_refl)
    as (_ & _ & _ & A & B & _).
  split; [exact B|exact A].
Defined.

(** C9, as stated, fails: a file that may be read but not written is
    enumerated and opened for reading, and never opened for writing. *)
Lemma read_only_file_not_rewritten :
  ~ Spec.every_file_rewritten ascii_only (start tree_read_only).
Proof.
  intros H. specialize (H (in_src "a.tsx") ltac:(vm_compute; tauto)).
  vm_compute in H.
  repeat (destruct H as [H|H]; [discriminate H|]). exact H.
Qed.

(** C9, amended: on any device, a call that returns has opened its file
    for reading, then for writing, and overwritten it with the
    transformed content, whatever the number of replacements: it returns
    [None], the file holds the transformed content, and this is so in
    particular when 0 replacements were made.  A run that completes has
    opened for writing exactly the enumerated paths, in order. *)
Theorem always_rewritten (tbl : char -> bool) (dev : device) (p : path)
        (w w' : world) (v : pyval) :
  fix_dark_mode_contrast_on tbl dev p w = (inr v, w') ->
  (exists f,
      resolve p (fs w) = inr (File f)
      /\ let content := rewrite_text tbl (universal_newlines (f_data f)) in
         v = PyNone
         /\ trace w' = trace w ++ [EvOpenR p; EvOpenW p; EvWrite p content]
         /\ resolve p (fs w') = inr (File (mkFile content true true))
         /\ (rewrite_count tbl (universal_newlines (f_data f)) = 0 ->
             In (EvOpenW p) (trace w')
             /\ In (EvWrite p content) (trace w')))
  /\ (forall t,
         exit_status (run_script_on tbl dev (start t)) = 0 ->
         map event_path
             (filter (fun e => match e with
                               | EvOpenW _ => true
                               | _ => false
                               end)
                     (trace (final (run_script_on tbl dev (start t)))))
         = enumerate (start t)).
Proof.
  intros H. apply fix_on_returns in H. split.
  - rewrite fix_file_eq in H.
    destruct (resolve p (fs w)) as [e|[f|es]] eqn:R; try discriminate H.
    cbn zeta in H. destruct (f_readable f) eqn:Hr;
      [destruct (f_writable f) eqn:Hw|]; try discriminate H.
    injection H as <- <-. exists f. split; [reflexivity|].
    cbn zeta. cbn [fs trace]. split; [reflexivity|].
    split; [reflexivity|]. split.
    + rewrite (resolve_update _ _ _ R), translate_newlines_id.
      destruct f as [d r wr]. simpl in Hr, Hw. now subst.
    + intros _. split; apply in_or_app; right; simpl; auto.
  - intros t Hexit.
    destruct (run_script_on_completes tbl dev (start t) Hexit)
      as (-> & w1 & L).
    rewrite run_script_unfold, main_eq. cbn zeta. rewrite L.
    cbn [final trace].
    destruct (@for_each_trace tbl _ _ _ L) as (new & Hn & _ & Hw1).
    cbn [trace start] in Hn. rewrite Hn. exact Hw1.
Qed.

Lemma always_rewritten_witness :
  let w' := snd (fix_dark_mode_contrast ascii_only (in_src "a.tsx")
                   (start tree_one_plain)) in
  trace w' = [EvOpenR (in_src "a.tsx"); EvOpenW (in_src "a.tsx");
              EvWrite (in_src "a.tsx") (lit "<div>")]
  /\ In (EvOpenW (in_src "a.tsx")) (trace w').
Proof.
  destruct (@always_rewritten ascii_only sound_device (in_src "a.tsx")
              (start tree_one_plain)
              (snd (fix_dark_mode_contrast ascii_only (in_src "a.tsx")
                      (start tree_one_plain)))
              PyNone eq_refl)
    as ((f & R & _ & A & _ & B) & _).
  injection R as <-.
  split; [exact A|]. apply B. reflexivity.
Defined.

(** ** The whole run *)

(** C2, as stated, fails: with [a.tsx], an unreadable [b.tsx] and
    [c.tsx], the third file is accessible and enumerated but never opened
    for writing. *)
Lemma third_file_skipped :
  ~ Spec.batch_resilient ascii_only (start tree_three).
Proof.
  intros H.
  specialize (H (in_src "c.tsx") (mkFile token true true)
                ltac:(vm_compute; tauto) eq_refl eq_refl eq_refl).
  vm_compute in H.
  repeat (destruct H as [H|H]; [discriminate H|]). exact H.
Qed.

(** C2, amended: a read or write failure on one file is not caught.  On
    any device, when the files before [p] have gone through and the call
    on [p] raises the [OSError] [e], the process ends with exit status 1
    and [e] as the uncaught exception; the completion message is not
    printed; and no file after [p] is opened.  If [open] refused [p], [e]
    names [p] with the reason and no file is changed; if [p] was accessible
    and the write failed, [e] gives the device's reason and [p] is left
    holding what the device took of the new content.  With three files of
    which the second is unreadable, the first is rewritten, the failure
    of the second is reported, and the third keeps its content; on a full
    device the first file written is left empty. *)
Theorem failure_aborts_batch (tbl : char -> bool) (dev : device)
        (w : world) (before : list path) (p : path) (after : list path)
        (w1 w2 : world) (e : OSError) :
  enumerate w = before ++ p :: after ->
  for_each_on tbl dev before
    (mkWorld (fs w) (trace w)
       (stdout w ++ [banner (List.length (enumerate w))])) = (inr tt, w1) ->
  fix_dark_mode_contrast_on tbl dev p w1 = (inl e, w2) ->
  run_script_on tbl dev w = mkOutcome 1 (Some e) w2
  /\ stdout w2 = stdout w ++ [banner (List.length (enumerate w))]
  /\ (forall ev, In ev (trace w2) ->
                 In ev (trace w) \/ In (event_path ev) (before ++ [p]))
  /\ (access_at p (fs w1) <> Some (true, true) ->
      fs w2 = fs w1 /\ e = mkOSError (refusal p (fs w1)) p)
  /\ (access_at p (fs w1) = Some (true, true) ->
      exists f reason k,
        resolve p (fs w1) = inr (File f)
        /\ e = mkOSErrorPlain reason
        /\ resolve p (fs w2)
           = inr (File (mkFile
                          (firstn k (translate_newlines
                                       (rewrite_text tbl
                                          (universal_newlines (f_data f)))))
                          true true)))
  /\ (let o := run_script tbl (start tree_three) in
      exit_status o = 1
      /\ uncaught o = Some (mkOSError EACCES (in_src "b.tsx"))
      /\ resolve (in_src "a.tsx") (fs (final o))
         = inr (File (mkFile replacement true true))
      /\ resolve (in_src "c.tsx") (fs (final o))
         = inr (File (mkFile token true true)))
  /\ (let o := run_script_on tbl full_device (start tree_three) in
      exit_status o = 1
      /\ uncaught o = Some (mkOSErrorPlain ENOSPC)
      /\ resolve (in_src "a.tsx") (fs (final o))
         = inr (File (mkFile [] true true))
      /\ resolve (in_src "c.tsx") (fs (final o))
         = inr (File (mkFile token true true))).
Proof.
  intros Hen Hb Hp.
  destruct (fix_on_failure _ _ _ _ Hp) as (Hout & Htr & Hopen & Hwrite).
  pose proof (loop_on_effects tbl dev before
                (mkWorld (fs w) (trace w)
                   (stdout w ++ [banner (List.length (enumerate w))])))
    as [Hs Ht].
  rewrite Hb in Hs, Ht. cbn [snd stdout trace] in Hs, Ht.
  split; [|split; [|split; [|split; [exact Hopen|split;
                                     [exact Hwrite|split]]]]].
  - rewrite run_script_on_eq. rewrite Hen at 1.
    rewrite loop_on_app, Hb, loop_on_cons. unfold bind. now rewrite Hp.
  - now rewrite Hout.
  - intros ev Hev. destruct (Htr ev Hev) as [H|H].
    + destruct (Ht ev H) as [H'|H']; [now left|].
      right. apply in_or_app. now left.
    + right. apply in_or_app. right. left. now rewrite H.
  - repeat split.
  - repeat split.
Qed.

Lemma failure_aborts_batch_witness :
  exit_status (run_script_on ascii_only sound_device (start tree_three)) = 1
  /\ uncaught (run_script_on ascii_only sound_device (start tree_three))
     = Some (mkOSError EACCES (in_src "b.tsx")).
Proof.
  pose (w0 := mkWorld tree_three [] [banner 3]).
  pose (w1 := snd (for_each ascii_only [in_src "a.tsx"] w0)).
  destruct (@failure_aborts_batch ascii_only sound_device (start tree_three)
              [in_src "a.tsx"] (in_src "b.tsx") [in_src "c.tsx"]
              w1 w1 (mkOSError EACCES (in_src "b.tsx"))
              eq_refl eq_refl eq_refl)
    as (A & _).
  rewrite A. split; reflexivity.
Defined.







(** *** What enumeration and the run do keep to *)

Lemma find_update_entry_other (n m : name) (g : node -> node)
      (es : list (name * node)) :
  String.eqb m n = false ->
  find_entry m (update_entry n g es) = find_entry m es.
Proof.
  intros Hmn. induction es as [|[k c] es IH]; [reflexivity|].
  simpl. destruct (String.eqb n k) eqn:Enk; simpl.
  - apply String.eqb_eq in Enk. subst k. now rewrite Hmn.
  - now rewrite IH.
Qed.

(** Writing the file at [p] leaves every other file as it was. *)
Lemma resolve_update_other (p : path) (d : str) :
  forall (q : path) (t : node) (f : file),
    p <> q ->
    resolve q t = inr (File f) ->
    resolve q (update p (set_data d) t) = inr (File f).
Proof.
  induction p as [|n p IH]; intros q t f Hpq R.
  - destruct q as [|m q]; [congruence|].
    destruct t as [g|es]; [discriminate R|exact R].
  - destruct t as [g|es]; [exact R|].
    destruct q as [|m q]; [discriminate R|].
    cbn [update resolve] in *.
    destruct (String.eqb m n) eqn:E.
    + apply String.eqb_eq in E. subst m.
      rewrite find_update_entry.
      destruct (find_entry n es) as [c|]; [|discriminate R].
      cbn [option_map]. apply IH; [congruence|exact R].
    + now rewrite find_update_entry_other.
Qed.

(** Every enumerated path ends in a name matching [*.tsx]. *)
Lemma rglob_from_names (suffix : string) :
  forall (t : node) (here p : path),
    In p (rglob_from suffix here t) ->
    exists dir n, p = dir ++ [n] /\ fnmatch_star suffix n = true.
Proof.
  fix IH 1. intros [f|es] here p; cbn [rglob_from]; [intros []|].
  intros H. apply in_app_or in H as [H|H].
  - apply in_map_iff in H as ([n c] & <- & H).
    apply filter_In in H as [_ H]. now exists here, n.
  - revert H. generalize es as l.
    fix IHl 1. intros [|[n c] l]; [intros []|].
    intros H. apply in_app_or in H as [H|H].
    + exact (IH c _ _ H).
    + exact (IHl l H).
Qed.

Lemma enumerate_names (w : world) (p : path) :
  In p (enumerate w) ->
  exists dir n, p = dir ++ [n] /\ fnmatch_star ".tsx" n = true.
Proof.
  unfold enumerate, rglob.
  destruct (resolve src_dir (fs w)) as [e|[f|es]]; try (intros []).
  apply rglob_from_names.
Qed.

(** The loop, however it ends, opens and writes listed paths only and
    leaves every other file as it was. *)
Lemma for_each_frame (tbl : char -> bool) (files : list path) :
  forall w,
    let w' := snd (for_each tbl files w) in
    (exists new,
        trace w' = trace w ++ new
        /\ forall ev, In ev new -> In (event_path ev) files)
    /\ forall q f,
        ~ In q files ->
        resolve q (fs w) = inr (File f) ->
        resolve q (fs w') = inr (File f).
Proof.
  induction files as [|p files IH]; intros w; cbn zeta.
  - split; [exists []; split; [now rewrite app_nil_r|intros ? []]|auto].
  - rewrite for_each_cons. unfold bind. rewrite fix_file_eq.
    destruct (resolve p (fs w)) as [e|[g|es]] eqn:R; cbn zeta.
    + split; [exists []; split; [now rewrite app_nil_r|intros ? []]|auto].
    + destruct (f_readable g); [destruct (f_writable g)|].
      * match goal with
        | |- context [for_each tbl files ?w0] =>
            destruct (IH w0) as ((new & Hn & Hev) & Hfr)
        end.
        cbn [fs trace] in Hn, Hfr. split.
        -- eexists. rewrite Hn, <- app_assoc. split; [reflexivity|].
           intros ev Hin. apply in_app_or in Hin as [Hin|Hin].
           ++ left. simpl in Hin. intuition (subst; reflexivity).
           ++ right. now apply Hev.
        -- intros q f Hq Rq. apply Hfr; [intros H; apply Hq; now right|].
           apply resolve_update_other; [|exact Rq].
           intros ->. apply Hq. now left.
      * cbn [snd fs trace]. split; [|auto].
        exists [EvOpenR p]. split; [reflexivity|].
        intros ev [<-|[]]. now left.
      * split; [exists []; split; [now rewrite app_nil_r|intros ? []]|auto].
    + split; [exists []; split; [now rewrite app_nil_r|intros ? []]|auto].
Qed.

(** A run opens and writes enumerated paths only, all of them named
    [*.tsx]; in a tree of the model, where no link lets a second path
    reach a file, a file that is not enumerated keeps its content.  With
    [a.tsx], [b.ts] and [c.tsx] the enumeration is [a.tsx], [c.tsx]. *)
Lemma run_frame (tbl : char -> bool) (t : node) :
  (forall ev,
      In ev (trace (final (run_script tbl (start t)))) ->
      In (event_path ev) (enumerate (start t))
      /\ exists dir n,
           event_path ev = dir ++ [n] /\ fnmatch_star ".tsx" n = true)
  /\ (forall q f,
         ~ In q (enumerate (start t)) ->
         resolve q t = inr (File f) ->
         resolve q (fs (final (run_script tbl (start t)))) = inr (File f))
  /\ enumerate (start tree_mixed) = [in_src "a.tsx"; in_src "c.tsx"].
Proof.
  assert (H : trace (final (run_script tbl (start t)))
              = trace (snd (for_each tbl (enumerate (start t))
                              (mkWorld t [] [banner (List.length
                                                      (enumerate (start t)))])))
              /\ fs (final (run_script tbl (start t)))
                 = fs (snd (for_each tbl (enumerate (start t))
                              (mkWorld t [] [banner (List.length
                                                      (enumerate (start t)))])))).
  { rewrite run_script_unfold, main_eq. cbn zeta. cbn [start fs trace stdout app].
    now destruct (for_each tbl _ _) as [[e|[]] w1]. }
  destruct H as [Ht Hf]. rewrite Ht, Hf.
  destruct (for_each_frame tbl (enumerate (start t))
              (mkWorld t [] [banner (List.length (enumerate (start t)))]))
    as ((new & Hn & Hev) & Hfr).
  cbn [trace fs app] in Hn, Hfr.
  split; [|split; [|reflexivity]].
  - intros ev Hin. rewrite Hn in Hin.
    split; [now apply Hev|]. apply (enumerate_names (start t)). now apply Hev.
  - exact Hfr.
Qed.

(** C8: the code departs from the claim on a directory whose name ends in
    [.tsx].  The enumeration yields it although it is no file, and the run
    stops on it with [IsADirectoryError]. *)
Theorem directory_enumerated (tbl : char -> bool) :
  enumerate (start tree_dir_match) = [in_src "icons.tsx"]
  /\ resolve (in_src "icons.tsx") tree_dir_match
     = inr (Dir [("index.ts"%string, plain "x")])
  /\ ~ Spec.enumerates_files_only (start tree_dir_match)
  /\ run_script tbl (start tree_dir_match)
     = mkOutcome 1 (Some (mkOSError EISDIR (in_src "icons.tsx")))
         (mkWorld tree_dir_match [] [banner 1]).
Proof.
  split; [reflexivity|]. split; [reflexivity|]. split; [|reflexivity].
  intros H. destruct (H (in_src "icons.tsx")) as [f Hf].
  - now left.
  - discriminate Hf.
Qed.

(* ================================================================== *)
(** * Further properties of the substitution *)
(* ================================================================== *)

Import Effects.

Lemma differences_app (u v a b : str) :
  List.length u = List.length v ->
  differences (u ++ a) (v ++ b) = differences u v + differences a b.
Proof.
  revert v. induction u as [|x u IH]; intros [|y v] H; try discriminate H.
  - reflexivity.
  - cbn [app differences]. rewrite IH by (simpl in H; lia). lia.
Qed.

Lemma differences_pair (tbl : char -> bool) (s : str) :
  differences s (fst (re_subn tbl pattern replacement s))
  = snd (re_subn tbl pattern replacement s).
Proof.
  induction s as [|post Hb IH|c r Hm IH] using (scan_ind tbl).
  - now rewrite subn_nil.
  - rewrite subn_hit by exact Hb. cbn [fst snd].
    rewrite differences_app by reflexivity. now rewrite IH.
  - rewrite subn_miss by exact Hm. cbn [fst snd differences].
    now rewrite N.eqb_refl, IH.
Qed.

(** X1: the substitution keeps the length of the text and changes
    characters only by turning a [7] into a [3]; the number of positions
    it changes is the number of replacements it makes. *)
Theorem substitution_footprint (tbl : char -> bool) (s : str) :
  List.length (rewrite_text tbl s) = List.length s
  /\ Forall2 same_or_fixed s (rewrite_text tbl s)
  /\ differences s (rewrite_text tbl s) = rewrite_count tbl s.
Proof.
  split; [apply rewrite_text_length|].
  split; [apply rewrite_text_related|].
  apply differences_pair.
Qed.

(** Whether the token stands exactly at the head of a piece does not
    depend on what follows a separator closing the piece. *)
Lemma exact_here_before_separator (tbl : char -> bool) (a : str)
      (c : char) (b : str) :
  is_word tbl c = false -> ~ In c token ->
  exact_here tbl (a ++ c :: b) = exact_here tbl a.
Proof.
  intros Hc Hnot.
  destruct (exact_here tbl (a ++ c :: b)) eqn:E1;
    destruct (exact_here tbl a) eqn:E2; try reflexivity; exfalso.
  - destruct (exact_here_inv _ _ E1) as (post & Heq & Hb).
    apply app_eq_app in Heq as [l [[H1 H2]|[H1 H2]]].
    + subst a post. rewrite exact_here_app in E2.
      destruct l as [|y l]; [discriminate E2|].
      simpl in Hb, E2. now rewrite Hb in E2.
    + destruct l as [|y l].
      * rewrite app_nil_r in H1. subst a. discriminate E2.
      * simpl in H2. injection H2 as Hy _. subst y.
        apply Hnot. rewrite H1. apply in_elt.
  - destruct (exact_here_inv _ _ E2) as (post & -> & Hb).
    rewrite <- app_assoc, exact_here_app in E1.
    destruct post as [|y post]; simpl in E1, Hb.
    + now rewrite Hc in E1.
    + now rewrite Hb in E1.
Qed.

(** X2: the substitution works piece by piece.  Across a character that
    is no word character and does not occur in the token (a newline, a
    space, a quote), the text before and the text after are rewritten
    independently, and the replacement counts add up. *)
Theorem substitution_by_pieces (tbl : char -> bool) (a : str) (c : char)
        (b : str) :
  is_word tbl c = false -> ~ In c token ->
  rewrite_text tbl (a ++ c :: b)
  = rewrite_text tbl a ++ c :: rewrite_text tbl b
  /\ rewrite_count tbl (a ++ c :: b)
     = rewrite_count tbl a + rewrite_count tbl b.
Proof.
  intros Hc Hnot.
  enough (H : re_subn tbl pattern replacement (a ++ c :: b)
              = (fst (re_subn tbl pattern replacement a)
                   ++ c :: fst (re_subn tbl pattern replacement b),
                 snd (re_subn tbl pattern replacement a)
                 + snd (re_subn tbl pattern replacement b))).
  { unfold rewrite_text, rewrite_count, re_sub. now rewrite H. }
  induction a as [|post Hb IH|x r Hm IH] using (scan_ind tbl).
  - rewrite subn_nil. cbn [app fst snd plus].
    apply subn_miss.
    exact (exact_here_before_separator tbl [] b Hc Hnot).
  - rewrite <- app_assoc, !subn_hit, IH; cbn [fst snd].
    + now rewrite <- app_assoc.
    + exact Hb.
    + destruct post; [exact Hc|exact Hb].
  - cbn [app]. rewrite !subn_miss, IH; cbn [fst snd]; [reflexivity|exact Hm|].
    rewrite <- Hm. exact (exact_here_before_separator tbl (x :: r) b Hc Hnot).
Qed.

Lemma substitution_by_pieces_witness :
  rewrite_text ascii_only (token ++ LF :: token ++ [48%N])
  = rewrite_text ascii_only token
      ++ LF :: rewrite_text ascii_only (token ++ [48%N]).
Proof.
  apply (@substitution_by_pieces ascii_only token LF (token ++ [48%N])).
  - reflexivity.
  - unfold token, LF. simpl. intuition discriminate.
Defined.

(* ================================================================== *)
(** * Further properties of the tree *)
(* ================================================================== *)

(** Writing data into a file changes no permission and turns nothing
    into or out of a regular file. *)
Lemma access_update (q : path) (d : str) :
  forall (p : path) (t : node),
    access_at p (update q (set_data d) t) = access_at p t.
Proof.
  unfold access_at.
  induction q as [|n q IH]; intros p t.
  - destruct t as [f|es]; [|reflexivity].
    destruct p as [|m p]; reflexivity.
  - destruct t as [f|es]; [reflexivity|].
    destruct p as [|m p]; [reflexivity|].
    cbn [update resolve].
    destruct (String.eqb m n) eqn:E.
    + apply String.eqb_eq in E. subst m. rewrite find_update_entry.
      destruct (find_entry n es) as [c|]; [|reflexivity].
      cbn [option_map]. apply IH.
    + now rewrite find_update_entry_other.
Qed.

Lemma names_update_entry (n : name) (g : node -> node)
      (es : list (name * node)) :
  map fst (update_entry n g es) = map fst es.
Proof.
  induction es as [|[m c] es IH]; [reflexivity|].
  simpl. destruct (String.eqb n m); simpl; [reflexivity|now rewrite IH].
Qed.

(** The entries listed for a directory depend on the names alone. *)
Lemma listing_by_names (suffix : string) (here : path)
      (es : list (name * node)) :
  map (fun e => here ++ [fst e])
      (filter (fun e => fnmatch_star suffix (fst e)) es)
  = map (fun n => here ++ [n])
        (filter (fnmatch_star suffix) (map fst es)).
Proof.
  induction es as [|[m c] es IH]; [reflexivity|].
  simpl. destruct (fnmatch_star suffix m); simpl; now rewrite IH.
Qed.

Lemma rglob_from_update (suffix : string) (d : str) :
  forall (t : node) (q here : path),
    rglob_from suffix here (update q (set_data d) t)
    = rglob_from suffix here t.
Proof.
  fix IH 1. intros [f|es] [|n q] here; try reflexivity.
  cbn [update rglob_from].
  rewrite !listing_by_names, names_update_entry. f_equal.
  generalize es as l.
  fix IHl 1. intros [|[m c] l]; [reflexivity|].
  cbn [update_entry]. destruct (String.eqb n m).
  - now rewrite IH.
  - now rewrite IHl.
Qed.

(** [rglob] on the node found at [root], with the paths spelled from
    [here]. *)
Lemma rglob_update_below (suffix : string) (d : str) :
  forall (root q here : path) (t : node),
    match resolve root (update q (set_data d) t) with
    | inr c => rglob_from suffix (here ++ root) c
    | inl _ => []
    end
    = match resolve root t with
      | inr c => rglob_from suffix (here ++ root) c
      | inl _ => []
      end.
Proof.
  induction root as [|m root IH]; intros q here t.
  - cbn [resolve]. apply rglob_from_update.
  - destruct t as [f|es].
    + now destruct q.
    + destruct q as [|n q]; [reflexivity|].
      cbn [update resolve].
      destruct (String.eqb m n) eqn:E.
      * apply String.eqb_eq in E. subst m. rewrite find_update_entry.
        destruct (find_entry n es) as [c|]; [|reflexivity].
        cbn [option_map].
        change (here ++ n :: root) with (here ++ [n] ++ root).
        rewrite app_assoc. apply IH.
      * now rewrite find_update_entry_other.
Qed.

Lemma rglob_as_match (suffix : string) (root : path) (t : node) :
  rglob suffix root t
  = match resolve root t with
    | inr c => rglob_from suffix ([] ++ root) c
    | inl _ => []
    end.
Proof.
  unfold rglob. now destruct (resolve root t) as [e|[f|es]].
Qed.

(** Writing data into a file changes nothing of what [rglob] yields. *)
Lemma rglob_update (suffix : string) (root q : path) (d : str) (t : node) :
  rglob suffix root (update q (set_data d) t) = rglob suffix root t.
Proof. rewrite !rglob_as_match. apply rglob_update_below. Qed.

(* ================================================================== *)
(** * Further properties of the script *)
(* ================================================================== *)

Section RunFacts.

Variable tbl : char -> bool.

Local Abbreviation fix_file := (fix_dark_mode_contrast tbl).

(** A call changes the tree, if at all, by writing data into its file. *)
Lemma fix_file_tree (p : path) (w : world) :
  fs (snd (fix_file p w)) = fs w
  \/ exists d, fs (snd (fix_file p w)) = update p (set_data d) (fs w).
Proof.
  rewrite fix_file_eq.
  destruct (resolve p (fs w)) as [e|[f|es]]; auto.
  cbn zeta. destruct (f_readable f); [destruct (f_writable f)|]; auto.
  right. eexists. reflexivity.
Qed.

Lemma fix_file_access (p q : path) (w : world) :
  access_at q (fs (snd (fix_file p w))) = access_at q (fs w).
Proof.
  destruct (fix_file_tree p w) as [->|[d ->]];
    [reflexivity|apply access_update].
Qed.

Lemma fix_file_enumerate (p : path) (w : world) :
  enumerate (snd (fix_file p w)) = enumerate w.
Proof.
  unfold enumerate.
  destruct (fix_file_tree p w) as [->|[d ->]];
    [reflexivity|apply rglob_update].
Qed.

Lemma for_each_access (files : list path) (q : path) :
  forall w, access_at q (fs (snd (for_each tbl files w)))
            = access_at q (fs w).
Proof.
  induction files as [|p files IH]; intros w; [reflexivity|].
  rewrite for_each_cons. unfold bind.
  pose proof (fix_file_access p q w) as H.
  destruct (fix_file p w) as [[e|v] w1]; cbn [snd] in *;
    [exact H|now rewrite IH].
Qed.

Lemma for_each_enumerate (files : list path) :
  forall w, enumerate (snd (for_each tbl files w)) = enumerate w.
Proof.
  induction files as [|p files IH]; intros w; [reflexivity|].
  rewrite for_each_cons. unfold bind.
  pose proof (fix_file_enumerate p w) as H.
  destruct (fix_file p w) as [[e|v] w1]; cbn [snd] in *;
    [exact H|now rewrite IH].
Qed.

(** A call goes through exactly on a readable and writable regular
    file. *)
Lemma fix_file_goes_through (p : path) (w : world) :
  (exists w', fix_file p w = (inr PyNone, w'))
  <-> access_at p (fs w) = Some (true, true).
Proof.
  rewrite fix_file_eq. unfold access_at.
  destruct (resolve p (fs w)) as [e|[f|es]]; cbn zeta.
  - split; [intros [w' H]|intros H]; discriminate H.
  - destruct (f_readable f); [destruct (f_writable f)|];
      (split; [intros [w' H]|intros H]); try discriminate H;
      [reflexivity|eexists; reflexivity].
  - split; [intros [w' H]|intros H]; discriminate H.
Qed.

Lemma for_each_goes_through (files : list path) :
  forall w,
    (exists w', for_each tbl files w = (inr tt, w'))
    <-> forall p, In p files -> access_at p (fs w) = Some (true, true).
Proof.
  induction files as [|p files IH]; intros w.
  - split; [intros _ q []|intros _; now exists w].
  - rewrite for_each_cons. unfold bind.
    pose proof (fix_file_goes_through p w) as Hp.
    pose proof (fun q => fix_file_access p q w) as Hacc.
    destruct (fix_file p w) as [[e|v] w1] eqn:E; cbn [snd] in Hacc.
    + split.
      * intros [w' H]. discriminate H.
      * intros Hall. destruct (proj2 Hp (Hall p (or_introl eq_refl)))
          as [w' H]. discriminate H.
    + destruct (@fix_file_success tbl _ _ _ _ E) as (-> & _).
      rewrite IH. split.
      * intros Hall q [<-|Hq].
        -- apply Hp. now exists w1.
        -- rewrite <- Hacc. now apply Hall.
      * intros Hall q Hq. rewrite Hacc. apply Hall. now right.
Qed.

(** What one call that goes through leaves at any regular file. *)
Lemma fix_file_result (q : path) (w w1 : world) (v : pyval) :
  fix_file q w = (inr v, w1) ->
  forall p f,
    resolve p (fs w) = inr (File f) ->
    resolve p (fs w1)
    = inr (File (if path_eq_dec p q then fixed_file tbl f else f)).
Proof.
  rewrite fix_file_eq. intros H p f R.
  destruct (resolve q (fs w)) as [e|[g|es]] eqn:Rq; try discriminate H.
  cbn zeta in H. destruct (f_readable g); [destruct (f_writable g)|];
    try discriminate H.
  injection H as _ <-. cbn [fs].
  destruct (path_eq_dec p q) as [->|Hpq].
  - rewrite (resolve_update _ _ _ R). rewrite R in Rq.
    injection Rq as <-. reflexivity.
  - apply resolve_update_other; [congruence|exact R].
Qed.

Lemma fixed_file_twice (f : file) :
  fixed_file tbl (fixed_file tbl f) = fixed_file tbl f.
Proof.
  unfold fixed_file. cbn [f_data f_readable f_writable].
  destruct (written_text_stable tbl (f_data f)) as [-> Hs].
  unfold rewrite_text at 1, re_sub. rewrite Hs. cbn [fst].
  now rewrite translate_newlines_id at 1.
Qed.

(** What a loop that runs to its end leaves at any regular file. *)
Lemma for_each_result (files : list path) :
  forall w w',
    for_each tbl files w = (inr tt, w') ->
    forall p f,
      resolve p (fs w) = inr (File f) ->
      resolve p (fs w')
      = inr (File (if in_dec path_eq_dec p files
                   then fixed_file tbl f else f)).
Proof.
  induction files as [|q files IH]; intros w w' H p f R.
  - injection H as <-. exact R.
  - rewrite for_each_cons in H. unfold bind in H.
    destruct (fix_file q w) as [[e|v] w1] eqn:E; [discriminate H|].
    pose proof (@fix_file_result _ _ _ _ E _ _ R) as R1.
    rewrite (IH _ _ H _ _ R1). do 2 f_equal.
    destruct (in_dec path_eq_dec p (q :: files)) as [Hin|Hout];
      destruct (in_dec path_eq_dec p files) as [Hin'|Hout'];
      destruct (path_eq_dec p q) as [Heq|Hne];
      try reflexivity; try apply fixed_file_twice.
    + exfalso. destruct Hin as [Hq|Hin]; [congruence|auto].
    + exfalso. apply Hout. now right.
    + exfalso. apply Hout. now right.
    + exfalso. apply Hout. left. congruence.
Qed.

(** A loop over accessible files that already hold what a call would
    write runs to its end and leaves the tree as it is. *)
Lemma for_each_settled (files : list path) :
  forall w,
    (forall p, In p files ->
               exists f, resolve p (fs w) = inr (File f)
                         /\ f_readable f = true /\ f_writable f = true
                         /\ fixed_file tbl f = f) ->
    exists w', for_each tbl files w = (inr tt, w') /\ fs w' = fs w.
Proof.
  induction files as [|p files IH]; intros w Hall.
  - now exists w.
  - rewrite for_each_cons. unfold bind.
    destruct (Hall p (or_introl eq_refl)) as (f & R & Hr & Hw & Hfix).
    rewrite fix_file_eq, R. cbn zeta. rewrite Hr, Hw.
    assert (Hfs : update p (set_data (translate_newlines
                                        (rewrite_text tbl
                                           (universal_newlines (f_data f)))))
                         (fs w) = fs w).
    { apply update_id with (c := File f); [exact R|].
      cbn [set_data]. f_equal. exact Hfix. }
    rewrite Hfs.
    match goal with
    | |- context [for_each tbl files ?w0] =>
        destruct (IH w0) as (w' & Hrun & Hsame)
    end.
    + cbn [fs]. intros q Hq. apply Hall. now right.
    + exists w'. split; [exact Hrun|exact Hsame].
Qed.

End RunFacts.

Section RunResults.

Variable tbl : char -> bool.

(** The world in which the loop starts: the banner has been printed. *)
Local Abbreviation after_banner w :=
  (mkWorld (fs w) (trace w)
           (stdout w ++ [banner (List.length (enumerate w))])).

Lemma run_script_eq (w : world) :
  run_script tbl w
  = match for_each tbl (enumerate w) (after_banner w) with
    | (inr _, w1) =>
        mkOutcome 0 None
          (mkWorld (fs w1) (trace w1) (stdout w1 ++ [done_message]))
    | (inl e, w1) => mkOutcome 1 (Some e) w1
    end.
Proof.
  rewrite run_script_unfold, main_eq. cbn zeta.
  now destruct (for_each tbl _ _) as [[e|[]] w1].
Qed.

Lemma run_script_tree (w : world) :
  fs (final (run_script tbl w))
  = fs (snd (for_each tbl (enumerate w) (after_banner w))).
Proof.
  rewrite run_script_eq.
  now destruct (for_each tbl _ _) as [[e|[]] w1].
Qed.

Lemma run_script_completes (w : world) :
  exit_status (run_script tbl w) = 0
  <-> exists w', for_each tbl (enumerate w) (after_banner w) = (inr tt, w').
Proof.
  rewrite run_script_eq.
  destruct (for_each tbl _ _) as [[e|[]] w1]; cbn [exit_status].
  - split; [discriminate|intros [w' H]; discriminate H].
  - split; [intros _; now exists w1|reflexivity].
Qed.



(** X4: how a call fails.  On any device, a call that raises an
    [OSError] has printed nothing, and either [open] refused the path (it
    is no regular file that may be read and written): then no file is
    changed and the exception names the path with the reason; or the file
    was accessible and the device failed on the write: then the exception
    carries the device's reason and no file name, and the file is left
    holding the characters the device took, none when it took none. *)
Theorem failed_call_effects (dev : device) (p : path) (w w' : world)
        (e : OSError) :
  fix_dark_mode_contrast_on tbl dev p w = (inl e, w') ->
  stdout w' = stdout w
  /\ ((access_at p (fs w) <> Some (true, true)
       /\ fs w' = fs w
       /\ e = mkOSError (refusal p (fs w)) p)
      \/ exists f reason k,
           let chars :=
             translate_newlines
               (rewrite_text tbl (universal_newlines (f_data f))) in
           resolve p (fs w) = inr (File f)
           /\ f_readable f = true /\ f_writable f = true
           /\ dev (update p (set_data []) (fs w)) p chars = Some (reason, k)
           /\ e = mkOSErrorPlain reason
           /\ resolve p (fs w')
              = inr (File (mkFile (firstn k chars) true true))).
Proof.
  rewrite fix_on_eq. unfold refusal, access_at.
  destruct (resolve p (fs w)) as [e0|[f|es]] eqn:R; cbn zeta.
  - intros H. injection H as <- <-. split; [reflexivity|].
    left. repeat split. discriminate.
  - destruct (f_readable f) eqn:Hr; [destruct (f_writable f) eqn:Hw|].
    + destruct (dev _ p _) as [[reason k]|] eqn:D; [|discriminate].
      intros H. injection H as <- <-. split; [reflexivity|].
      right. exists f, reason, k. cbn zeta. cbn [fs].
      rewrite (resolve_update _ _ _ R).
      destruct f as [d r wr]. simpl in Hr, Hw. subst. now repeat split.
    + intros H. injection H as <- <-. split; [reflexivity|].
      left. repeat split. discriminate.
    + intros H. injection H as <- <-. split; [reflexivity|].
      left. repeat split. discriminate.
  - intros H. injection H as <- <-. split; [reflexivity|].
    left. repeat split. discriminate.
Qed.


(** X6: what a completed run leaves in the enumerated files.  On any
    device, after a run that ends with exit status 0, every regular file
    that was enumerated holds the substitution applied to its original
    text, line ends normalised, with its permissions as before. *)
Theorem run_result (dev : device) (w : world) (p : path) (f : file) :
  exit_status (run_script_on tbl dev w) = 0 ->
  In p (enumerate w) ->
  resolve p (fs w) = inr (File f) ->
  resolve p (fs (final (run_script_on tbl dev w)))
  = inr (File (fixed_file tbl f)).
Proof.
  intros Hexit Hp R.
  destruct (run_script_on_completes tbl dev w Hexit) as (-> & w' & L).
  rewrite run_script_tree, L. cbn [snd].
  rewrite (@for_each_result tbl _ _ _ L _ _ R).
  destruct (in_dec path_eq_dec p (enumerate w)) as [_|Hout];
    [reflexivity|now destruct Hout].
Qed.

(** X7: whatever its outcome, a run creates, removes and renames nothing:
    the enumeration afterwards is the enumeration before, and every path
    resolves to a regular file with the same permissions as before, or to
    none as before. *)
Theorem run_keeps_file_set (w : world) :
  enumerate (final (run_script tbl w)) = enumerate w
  /\ forall q, access_at q (fs (final (run_script tbl w)))
               = access_at q (fs w).
Proof.
  split.
  - unfold enumerate at 1. rewrite run_script_tree.
    apply (for_each_enumerate tbl (enumerate w) (after_banner w)).
  - intros q. rewrite run_script_tree.
    apply (for_each_access tbl (enumerate w) q (after_banner w)).
Qed.

(** X8: after a run that completed, a second run completes too and
    leaves the tree exactly as the first run left it. *)
Theorem second_run_changes_nothing (w : world) :
  exit_status (run_script tbl w) = 0 ->
  exit_status (run_script tbl (final (run_script tbl w))) = 0
  /\ fs (final (run_script tbl (final (run_script tbl w))))
     = fs (final (run_script tbl w)).
Proof.
  intros Hexit.
  set (w1 := final (run_script tbl w)).
  apply run_script_completes in Hexit as [w' Hloop].
  assert (Hfs : fs w1 = fs w').
  { subst w1. now rewrite run_script_tree, Hloop. }
  assert (Hen : enumerate w1 = enumerate w).
  { unfold enumerate at 1. rewrite Hfs.
    change (rglob ".tsx" src_dir (fs w')) with (enumerate w').
    change w' with (snd (@inr OSError unit tt, w')). rewrite <- Hloop.
    apply (for_each_enumerate tbl (enumerate w) (after_banner w)). }
  destruct (@for_each_settled tbl (enumerate w1) (after_banner w1))
    as (w2 & Hrun & Hsame).
  { cbn [fs]. intros p Hp. rewrite Hen in Hp.
    pose proof (proj1 (for_each_goes_through tbl (enumerate w)
                         (after_banner w))
                      (ex_intro _ w' Hloop) p Hp) as Hacc.
    cbn [fs] in Hacc. unfold access_at in Hacc.
    destruct (resolve p (fs w)) as [e|[f|es]] eqn:R; try discriminate Hacc.
    injection Hacc as Hr Hw.
    exists (fixed_file tbl f). split; [|split; [|split]].
    - rewrite Hfs, (@for_each_result tbl _ _ _ Hloop p f R).
      now destruct (in_dec path_eq_dec p (enumerate w)).
    - exact Hr.
    - exact Hw.
    - apply fixed_file_twice. }
  split.
  - apply run_script_completes. now exists w2.
  - rewrite run_script_tree, Hrun. exact Hsame.
Qed.

End RunResults.


Lemma failed_call_effects_witness :
  stdout (start tree_one_match) = []
  /\ (exists f reason k,
         resolve (in_src "a.tsx") tree_one_match = inr (File f)
         /\ full_device (update (in_src "a.tsx") (set_data []) tree_one_match)
              (in_src "a.tsx")
              (translate_newlines
                 (rewrite_text ascii_only (universal_newlines (f_data f))))
            = Some (reason, k)
         /\ mkOSErrorPlain ENOSPC = mkOSErrorPlain reason).
Proof.
  destruct (@failed_call_effects ascii_only full_device (in_src "a.tsx")
              (start tree_one_match)
              (snd (fix_dark_mode_contrast_on ascii_only full_device
                      (in_src "a.tsx") (start tree_one_match)))
              (mkOSErrorPlain ENOSPC) eq_refl)
    as (A & [(B & _)|(f & reason & k & R & _ & _ & D & E & _)]).
  - exfalso. apply B. reflexivity.
  - split; [exact A|]. exists f, reason, k. now repeat split.
Defined.


Lemma run_result_witness :
  resolve (in_src "a.tsx")
          (fs (final (run_script_on ascii_only sound_device
                        (start tree_one_match))))
  = inr (File (mkFile (div_line replacement) true true)).
Proof.
  apply (@run_result ascii_only sound_device (start tree_one_match)
           (in_src "a.tsx") (mkFile (div_line token) true true) eq_refl).
  - now left.
  - reflexivity.
Defined.

Lemma second_run_changes_nothing_witness :
  exit_status
    (run_script ascii_only
       (final (run_script ascii_only (start tree_one_match)))) = 0
  /\ fs (final (run_script ascii_only
                  (final (run_script ascii_only (start tree_one_match)))))
     = fs (final (run_script ascii_only (start tree_one_match))).
Proof.
  exact (@second_run_changes_nothing ascii_only (start tree_one_match)
           eq_refl).
Defined.

(* ================================================================== *)
(** * Further properties of the enumeration *)
(* ================================================================== *)

Lemma string_length_append (a b : string) :
  String.length (a ++ b) = String.length a + String.length b.
Proof. induction a as [|c a IH]; simpl; [reflexivity|now rewrite IH]. Qed.

Lemma substring_past_prefix (a b : string) (m : nat) :
  substring (String.length a) m (a ++ b) = substring 0 m b.
Proof. induction a as [|c a IH]; simpl; [reflexivity|exact IH]. Qed.

Lemma substring_whole (b : string) : substring 0 (String.length b) b = b.
Proof. induction b as [|c b IH]; simpl; [reflexivity|now rewrite IH]. Qed.

Lemma substring_split (k : nat) :
  forall (m : nat) (n : string),
    k + m = String.length n ->
    n = (substring 0 k n ++ substring k m n)%string.
Proof.
  induction k as [|k IH]; intros m n H.
  - simpl in H. subst m.
    replace (substring 0 0 n) with EmptyString by now destruct n.
    simpl. now rewrite substring_whole.
  - destruct n as [|c n]; [discriminate H|].
    simpl in H. injection H as H. simpl. f_equal. now apply IH.
Qed.

(** A name matches [*] followed by [suffix] exactly when it ends in
    [suffix]. *)
Lemma fnmatch_star_spec (suffix : string) (n : name) :
  fnmatch_star suffix n = true
  <-> exists stem : string, n = (stem ++ suffix)%string.
Proof.
  unfold fnmatch_star. split.
  - intros H. apply andb_true_iff in H as [Hle Heq].
    apply Nat.leb_le in Hle. apply String.eqb_eq in Heq.
    exists (substring 0 (String.length n - String.length suffix) n).
    rewrite <- Heq at 2. apply substring_split. lia.
  - intros [stem ->]. rewrite string_length_append.
    apply andb_true_iff. split; [apply Nat.leb_le; lia|].
    replace (String.length stem + String.length suffix
             - String.length suffix) with (String.length stem) by lia.
    rewrite substring_past_prefix, substring_whole.
    apply String.eqb_refl.
Qed.

(** Every path yielded lies below the starting point and ends in a
    matching name. *)
Lemma rglob_from_below (suffix : string) :
  forall (t : node) (here p : path),
    In p (rglob_from suffix here t) ->
    exists rel n, p = here ++ rel ++ [n] /\ fnmatch_star suffix n = true.
Proof.
  fix IH 1. intros [f|es] here p; cbn [rglob_from]; [intros []|].
  intros H. apply in_app_or in H as [H|H].
  - clear IH. apply in_map_iff in H as ([n c] & <- & H).
    apply filter_In in H as [_ H]. now exists [], n.
  - revert H. generalize es as l.
    fix IHl 1. intros [|[m c] l]; [intros []|].
    intros H. apply in_app_or in H as [H|H].
    + pose proof (IH c _ _ H) as Hc. clear IH IHl.
      destruct Hc as (rel & n & -> & Hn).
      exists (m :: rel), n. split; [|exact Hn].
      now rewrite <- app_assoc.
    + exact (IHl l H).
Qed.

(** X9: a run opens and writes nothing but enumerated paths.  On any
    device and whatever the outcome, every event of a run is on an
    enumerated path, which lies below [apps/frontend/src], at any depth,
    and ends in a name of the form [stem.tsx]. *)
Theorem run_opens_matches_only (tbl : char -> bool) (dev : device)
        (w : world) (ev : event) :
  In ev (trace (final (run_script_on tbl dev w))) ->
  In ev (trace w)
  \/ (In (event_path ev) (enumerate w)
      /\ exists (rel : path) (stem : string),
           event_path ev = src_dir ++ rel ++ [(stem ++ ".tsx")%string]).
Proof.
  intros Hev.
  assert (H : In ev (trace w) \/ In (event_path ev) (enumerate w)).
  { destruct (loop_on_effects tbl dev (enumerate w)
                (mkWorld (fs w) (trace w)
                   (stdout w ++ [banner (List.length (enumerate w))])))
      as [_ Ht].
    apply Ht. rewrite run_script_on_eq in Hev.
    now destruct (for_each_on tbl dev _ _) as [[e|[]] w1]. }
  destruct H as [H|H]; [now left|right]. split; [exact H|].
  unfold enumerate, rglob in H.
  destruct (resolve src_dir (fs w)) as [e|[f|es]]; try destruct H.
  apply rglob_from_below in H as (rel & n & -> & Hn).
  apply fnmatch_star_spec in Hn as [stem ->]. now exists rel, stem.
Qed.

Lemma run_opens_matches_only_witness :
  exists (rel : path) (stem : string),
    src_dir ++ ["ui"; "forms"; "Field.tsx"]%string
    = src_dir ++ rel ++ [(stem ++ ".tsx")%string].
Proof.
  destruct (@run_opens_matches_only ascii_only sound_device
              (start tree_nested)
              (EvOpenW (src_dir ++ ["ui"; "forms"; "Field.tsx"]%string)))
    as [[]|[_ H]].
  - vm_compute. tauto.
  - exact H.
Defined.
